(** * Outbound-call cadence system: contact state store, cadence rules,
      outcome webhook, cadence engine and initial dialer.

    Shallow embedding of the TypeScript sources and the properties proved
    about them.  Conventions of the embedding:

    - JavaScript numbers that hold counters, priorities and epoch
      milliseconds are integers of [Z].
    - An ISO-8601 timestamp string is identified with the instant it denotes,
      in milliseconds since the epoch ([Timestamp]); [new Date(s)] and
      [toISOString] are the two directions of that identification, and a
      string that denotes no instant is outside the model.  Calendar
      arithmetic ([setDate], [setHours], ...) is taken in UTC.
    - An optional property ([x?: T], or a property of a [Partial<T>]) is an
      [option]; [None] is JavaScript's [undefined].
    - A thrown [TypeError] is the [Throw] result of a computation.
    - Calls to other services (Sync, the serverless invocations, PostgreSQL)
      are explicit state passing over a model of the service's state, or an
      action in a trace with the response supplied by the environment. *)

From Stdlib Require Import ZArith List Lia Bool Ascii String.
From stdpp Require Import base strings gmap list sorting pretty.
Import ListNotations.

Local Open Scope string_scope.
Local Open Scope list_scope.
Local Open Scope Z_scope.

(** ** Shared types: [types/cadence_state.ts] *)

Definition Timestamp := Z.

Inductive Status :=
  | PENDING | ACTIVE | PAUSED
  | COMPLETED_SUCCESS | COMPLETED_EXHAUSTED | ERROR.

Global Instance Status_eq_dec : EqDecision Status.
Proof. solve_decision. Defined.

(** Values of the opaque [metadata] bag. *)
Inductive MetaValue :=
  | MStr (s : string)
  | MNum (n : Z)
  | MTime (t : Timestamp)
  | MNull.

Global Instance MetaValue_eq_dec : EqDecision MetaValue.
Proof. solve_decision. Defined.

Abbreviation Metadata := (gmap string MetaValue).

Record ContactCadenceState := mkState {
  phoneNumber : string;
  leadId : option string;
  lastCallSid : option string;
  lastCallDisposition : option string;
  lastAttemptTimestamp : option Timestamp;
  nextCallTimestamp : option Timestamp;
  attemptCount : option Z;
  status : option Status;
  metadata : option Metadata;
  currentCallSid : option string;
  state : option string;
  zipcode : option string;
  hopperPriority : option Z
}.

(** The object literal [{ phoneNumber: p }] with every other property absent. *)
Definition bare (p : string) : ContactCadenceState :=
  mkState p None None None None None None None None None None None None.

(** Property assignments [s.f = v]. *)
Definition set_lastCallSid (v : option string) (s : ContactCadenceState) :=
  mkState (phoneNumber s) (leadId s) v (lastCallDisposition s)
    (lastAttemptTimestamp s) (nextCallTimestamp s) (attemptCount s) (status s)
    (metadata s) (currentCallSid s) (state s) (zipcode s) (hopperPriority s).
Definition set_lastCallDisposition (v : option string) (s : ContactCadenceState) :=
  mkState (phoneNumber s) (leadId s) (lastCallSid s) v
    (lastAttemptTimestamp s) (nextCallTimestamp s) (attemptCount s) (status s)
    (metadata s) (currentCallSid s) (state s) (zipcode s) (hopperPriority s).
Definition set_lastAttemptTimestamp (v : option Timestamp) (s : ContactCadenceState) :=
  mkState (phoneNumber s) (leadId s) (lastCallSid s) (lastCallDisposition s)
    v (nextCallTimestamp s) (attemptCount s) (status s)
    (metadata s) (currentCallSid s) (state s) (zipcode s) (hopperPriority s).
Definition set_nextCallTimestamp (v : option Timestamp) (s : ContactCadenceState) :=
  mkState (phoneNumber s) (leadId s) (lastCallSid s) (lastCallDisposition s)
    (lastAttemptTimestamp s) v (attemptCount s) (status s)
    (metadata s) (currentCallSid s) (state s) (zipcode s) (hopperPriority s).
Definition set_attemptCount (v : option Z) (s : ContactCadenceState) :=
  mkState (phoneNumber s) (leadId s) (lastCallSid s) (lastCallDisposition s)
    (lastAttemptTimestamp s) (nextCallTimestamp s) v (status s)
    (metadata s) (currentCallSid s) (state s) (zipcode s) (hopperPriority s).
Definition set_status (v : option Status) (s : ContactCadenceState) :=
  mkState (phoneNumber s) (leadId s) (lastCallSid s) (lastCallDisposition s)
    (lastAttemptTimestamp s) (nextCallTimestamp s) (attemptCount s) v
    (metadata s) (currentCallSid s) (state s) (zipcode s) (hopperPriority s).
Definition set_metadata (v : option Metadata) (s : ContactCadenceState) :=
  mkState (phoneNumber s) (leadId s) (lastCallSid s) (lastCallDisposition s)
    (lastAttemptTimestamp s) (nextCallTimestamp s) (attemptCount s) (status s)
    v (currentCallSid s) (state s) (zipcode s) (hopperPriority s).
Definition set_currentCallSid (v : option string) (s : ContactCadenceState) :=
  mkState (phoneNumber s) (leadId s) (lastCallSid s) (lastCallDisposition s)
    (lastAttemptTimestamp s) (nextCallTimestamp s) (attemptCount s) (status s)
    (metadata s) v (state s) (zipcode s) (hopperPriority s).
Definition set_hopperPriority (v : option Z) (s : ContactCadenceState) :=
  mkState (phoneNumber s) (leadId s) (lastCallSid s) (lastCallDisposition s)
    (lastAttemptTimestamp s) (nextCallTimestamp s) (attemptCount s) (status s)
    (metadata s) (currentCallSid s) (state s) (zipcode s) v.

(** ** JavaScript operators used by the sources *)

(** [x || d] on an optional string: [undefined] and the empty string are falsy. *)
Definition str_or (x : option string) (d : string) : string :=
  match x with
  | Some s => if bool_decide (s = EmptyString) then d else s
  | None => d
  end.

(** [x || 0] on an optional number. *)
Definition num_or0 (x : option Z) : Z :=
  match x with Some n => n | None => 0 end.

(** [x ?? y]. *)
Definition nullish {A} (x y : option A) : option A :=
  match x with Some _ => x | None => y end.

(** [xs.includes(k)] on an array of strings. *)
Definition includes (xs : list string) (k : string) : bool :=
  existsb (fun x => bool_decide (x = k)) xs.

(** [s.split(',')]. *)
Fixpoint split_go (cur : string) (s : string) : list string :=
  match s with
  | EmptyString => [cur]
  | String c rest =>
      if bool_decide (c = ","%char) then cur :: split_go EmptyString rest
      else split_go (cur +:+ String c EmptyString) rest
  end.
Definition split_comma (s : string) : list string := split_go EmptyString s.

(** The result of a computation that may raise a [TypeError]. *)
Inductive Result (A : Type) :=
  | Ok (a : A)
  | Throw.
Arguments Ok {A} a.
Arguments Throw {A}.

(** Names that every object literal inherits from [Object.prototype]: a
    lookup [obj[k]] with such a [k] yields a truthy value that is not one of
    the object's own entries. *)
Definition objectPrototypeMembers : list string :=
  [ "constructor"; "hasOwnProperty"; "isPrototypeOf"; "propertyIsEnumerable";
    "toLocaleString"; "toString"; "valueOf"; "__proto__";
    "__defineGetter__"; "__defineSetter__"; "__lookupGetter__";
    "__lookupSetter__" ].

(** What [rules[k] || rules.DEFAULT] evaluates to. *)
Inductive Looked (R : Type) :=
  | OwnRule (r : R)      (* an entry of the table *)
  | Inherited            (* a member of Object.prototype *)
  | Undefined.           (* no such entry and no DEFAULT either *)
Arguments OwnRule {R} r.
Arguments Inherited {R}.
Arguments Undefined {R}.

Definition lookupOrDefault {R} (rules : gmap string R) (k : string) : Looked R :=
  match rules !! k with
  | Some r => OwnRule r
  | None =>
      if includes objectPrototypeMembers k then Inherited
      else match rules !! "DEFAULT" with
           | Some r => OwnRule r
           | None => Undefined
           end
  end.

(** The inbound payload of the outcome webhook. *)
Record RetellCallOutcomePayload := mkPayload {
  call_id : string;
  twilio_call_sid : string;
  phone_number : string;
  disposition : string;
  call_ended_timestamp : Timestamp
}.

(** [context.RETELL_HANDOFF_DISPOSITIONS || "..."] split at the commas. *)
Definition handoffDispositionsOf (env : option string) : list string :=
  split_comma (str_or env "CALL_COMPLETED_HUMAN_HANDOFF,CALL_TRANSFERRED").

(** The values a rule's [finalStatusOnExhaustion] ranges over:
    ['COMPLETED_EXHAUSTED' | 'PAUSED' | 'COMPLETED_SUCCESS' | 'ERROR']. *)
Inductive FinalStatus :=
  | FinalExhausted | FinalPaused | FinalSuccess | FinalError.

Global Instance FinalStatus_eq_dec : EqDecision FinalStatus.
Proof. solve_decision. Defined.

Definition statusOfFinal (f : FinalStatus) : Status :=
  match f with
  | FinalExhausted => COMPLETED_EXHAUSTED
  | FinalPaused => PAUSED
  | FinalSuccess => COMPLETED_SUCCESS
  | FinalError => ERROR
  end.

(** ** [src/utils/cadence_rules.ts]: rules by attempt-count segments *)

Module CadenceRules.

Record CadenceRuleDelay := mkDelay {
  days : Z; hours : Z; minutes : Z; seconds : Z
}.

Record CadenceRuleSegment := mkSegment {
  callCountMin : Z;
  callCountMax : Z;
  delay : CadenceRuleDelay;
  hopperPriorityOverride : option Z
}.

Record CadenceDispositionRule := mkRule {
  segments : list CadenceRuleSegment;
  defaultHopperPriority : option Z;
  finalStatusOnExhaustion : FinalStatus
}.

Abbreviation CadenceRulesConfig := (gmap string CadenceDispositionRule).

Definition minutesDelay (m : Z) : CadenceRuleDelay := mkDelay 0 0 m 0.

Definition seg (lo hi : Z) (d : CadenceRuleDelay) : CadenceRuleSegment :=
  mkSegment lo hi d None.

Definition getCadenceRules : CadenceRulesConfig :=
  list_to_map
    [ ("NEW_LEAD",
       mkRule [ seg 0 0 (mkDelay 0 0 0 0) ] (Some 100) FinalExhausted);
      ("ANSWERING_MACHINE",
       mkRule [ seg 1 1 (mkDelay 0 0 22 4);
                seg 2 2 (mkDelay 0 0 11 52);
                seg 3 3 (mkDelay 0 0 22 4);
                seg 4 4 (mkDelay 0 0 11 52);
                seg 5 5 (mkDelay 0 1 30 32);
                seg 6 6 (mkDelay 0 0 22 4);
                seg 7 7 (mkDelay 0 1 30 32);
                seg 8 8 (mkDelay 0 0 11 52);
                seg 9 9 (mkDelay 0 1 30 32);
                seg 10 10 (mkDelay 0 0 22 4) ]
              (Some 50) FinalPaused);
      ("NO_ANSWER",
       mkRule [ seg 1 1 (minutesDelay 20);
                seg 2 2 (minutesDelay 120);
                seg 3 3 (mkDelay 1 0 0 0) ]
              None FinalExhausted);
      ("VOICEMAIL_DETECTED",
       mkRule [ seg 1 1 (mkDelay 2 0 0 0);
                seg 2 2 (mkDelay 5 0 0 0) ]
              (Some 40) FinalPaused);
      ("BUSY",
       mkRule [ seg 1 1 (minutesDelay 15);
                seg 2 2 (minutesDelay 60) ]
              None FinalExhausted);
      ("ERROR_CALL_FAILED",
       mkRule [ seg 1 2 (minutesDelay 5);
                seg 3 3 (minutesDelay 30) ]
              None FinalError);
      ("ERROR_INITIATION_FAILED",
       mkRule [ seg 1 3 (minutesDelay 10) ] None FinalError);
      ("APPOINTMENT_SCHEDULED_AI",
       mkRule [ seg 1 99 (minutesDelay 0) ] None FinalSuccess);
      ("CALL_COMPLETED_HUMAN_HANDOFF",
       mkRule [ seg 1 99 (minutesDelay 0) ] None FinalPaused);
      ("DEFAULT",
       mkRule [ seg 1 1 (minutesDelay 5) ] None FinalExhausted) ].

End CadenceRules.

(** ** The flat rule table (per-attempt delay list with [maxAttempts]) *)

Module FlatCadenceRules.

Record CadenceAttemptRule := mkAttempt { delayMinutes : Z }.

Record CadenceDispositionRule := mkRule {
  maxAttempts : Z;
  attempts : list CadenceAttemptRule;
  finalStatusOnExhaustion : FinalStatus
}.

Abbreviation CadenceRulesConfig := (gmap string CadenceDispositionRule).

Definition getCadenceRules : CadenceRulesConfig :=
  list_to_map
    [ ("NEW_LEAD",
       mkRule 5 [ mkAttempt 0; mkAttempt 60; mkAttempt (24 * 60);
                  mkAttempt (48 * 60); mkAttempt (72 * 60) ]
              FinalExhausted);
      ("NO_ANSWER",
       mkRule 3 [ mkAttempt 20; mkAttempt 120; mkAttempt (24 * 60) ]
              FinalExhausted);
      ("VOICEMAIL_DETECTED",
       mkRule 2 [ mkAttempt (2 * 24 * 60); mkAttempt (5 * 24 * 60) ]
              FinalPaused);
      ("BUSY",
       mkRule 2 [ mkAttempt 15; mkAttempt 60 ] FinalExhausted);
      ("ERROR_CALL_FAILED",
       mkRule 2 [ mkAttempt 5; mkAttempt 30 ] FinalError);
      ("APPOINTMENT_SCHEDULED_AI",
       mkRule 1 [ mkAttempt 0 ] FinalSuccess);
      ("CALL_COMPLETED_HUMAN_HANDOFF",
       mkRule 1 [ mkAttempt 0 ] FinalPaused);
      ("DEFAULT",
       mkRule 1 [ mkAttempt 5 ] FinalExhausted) ].

End FlatCadenceRules.

(** ** [src/functions/retell_call_outcome_webhook.ts]: the decision step *)

Module Webhook.
Import CadenceRules.

(** [setDate(getDate()+days)], [setHours], [setMinutes], [setSeconds] on
    [new Date()], read back with [toISOString]. *)
Definition addDelay (now : Timestamp) (d : CadenceRuleDelay) : Timestamp :=
  now + days d * 86400000 + hours d * 3600000
      + minutes d * 60000 + seconds d * 1000.

(** The predicate passed to [segments.find]. *)
Definition matchesSegment (n : Z) (sg : CadenceRuleSegment) : bool :=
  (callCountMin sg <=? n) && (n <=? callCountMax sg).

(** [currentRule.defaultHopperPriority]: a [TypeError] on [undefined]. *)
Definition ruleDefaultPriority (rule : Looked CadenceDispositionRule)
    : Result (option Z) :=
  match rule with
  | OwnRule r => Ok (defaultHopperPriority r)
  | Inherited => Ok None
  | Undefined => Throw
  end.

(** [currentRule.finalStatusOnExhaustion === 'COMPLETED_SUCCESS']: a
    [TypeError] on [undefined], false on an inherited member. *)
Definition isFinalSuccess (rule : Looked CadenceDispositionRule)
    : Result bool :=
  match rule with
  | OwnRule r => Ok (bool_decide (finalStatusOnExhaustion r = FinalSuccess))
  | Inherited => Ok false
  | Undefined => Throw
  end.

(** [own ?? currentRule.defaultHopperPriority]: the rule is read only when
    the contact has no priority of its own. *)
Definition priorityOrDefault (own : option Z)
    (rule : Looked CadenceDispositionRule) : Result (option Z) :=
  match own with
  | Some p => Ok (Some p)
  | None => ruleDefaultPriority rule
  end.

(** The [if / else if / else] that both branches of the handler run on
    the state they have prepared (lines 148-176 and 244-272). *)
Definition applyRules (handoffDispositions : list string)
    (dispositionRuleKey : string)
    (currentRule : Looked CadenceDispositionRule)
    (now : Timestamp) (cs : ContactCadenceState)
    : Result ContactCadenceState :=
  let success :=
    Ok (set_hopperPriority None
          (set_nextCallTimestamp None
             (set_status (Some COMPLETED_SUCCESS) cs))) in
  if bool_decide (dispositionRuleKey = "APPOINTMENT_SCHEDULED_AI")
  then success
  else
    match isFinalSuccess currentRule with
    | Throw => Throw
    | Ok true => success
    | Ok false =>
        if includes handoffDispositions dispositionRuleKey then
          Ok (set_nextCallTimestamp None (set_status (Some PAUSED) cs))
        else
          match currentRule with
          | OwnRule r =>
              match List.find (matchesSegment (num_or0 (attemptCount cs)))
                              (segments r) with
              | Some matchedSegment =>
                  let cs' :=
                    set_nextCallTimestamp
                      (Some (addDelay now (delay matchedSegment)))
                      (set_status (Some ACTIVE) cs) in
                  Ok (match hopperPriorityOverride matchedSegment with
                      | Some p => set_hopperPriority (Some p) cs'
                      | None => cs'
                      end)
              | None =>
                  Ok (set_hopperPriority None
                        (set_nextCallTimestamp None
                           (set_status
                              (Some (statusOfFinal
                                       (finalStatusOnExhaustion r)))
                              cs)))
              end
          | _ => Throw   (* [currentRule.segments] is undefined *)
          end
    end.

(** The fields both branches copy from the payload (lines 232-236). *)
Definition recordOutcome (event : RetellCallOutcomePayload)
    (webhookTime : Timestamp) (cs : ContactCadenceState) :=
  set_metadata
    (Some (<["lastWebhookTimestamp" := MTime webhookTime]>
             (<["retellCallId" := MStr (call_id event)]>
                (default ∅ (metadata cs)))))
    (set_currentCallSid None
       (set_lastAttemptTimestamp (Some (call_ended_timestamp event))
          (set_lastCallDisposition (Some (disposition event))
             (set_lastCallSid (Some (twilio_call_sid event)) cs)))).

(** The regular cadence branch (lines 219-272): [fetched] is the state read
    from the store, [webhookTime] and [now] the two readings of the clock. *)
Definition decideCadence (rules : CadenceRulesConfig)
    (handoffDispositions : list string)
    (fetched : option ContactCadenceState)
    (event : RetellCallOutcomePayload)
    (webhookTime now : Timestamp) : Result ContactCadenceState :=
  let cs0 :=
    match fetched with
    | Some f => set_attemptCount (Some (num_or0 (attemptCount f) + 1)) f
    | None =>
        set_metadata (Some ∅)
          (set_status (Some PENDING)
             (set_attemptCount (Some 1) (bare (phone_number event))))
    end in
  let cs1 := recordOutcome event webhookTime cs0 in
  let dispositionRuleKey := str_or (lastCallDisposition cs1) "DEFAULT" in
  let currentRule := lookupOrDefault rules dispositionRuleKey in
  match priorityOrDefault (hopperPriority cs1) currentRule with
  | Throw => Throw
  | Ok p =>
      applyRules handoffDispositions dispositionRuleKey currentRule now
        (set_hopperPriority p cs1)
  end.

(** A row of the [leads] table, as far as the handler reads it. *)
Record LeadRow := mkLead {
  lead_phone_number : string;
  lead_metadata : option Metadata;
  first_name : option string;
  last_name : option string;
  lead_state : option string;
  zip_code : option string;
  hopper_priority : option Z
}.

Definition metaOfString (o : option string) : MetaValue :=
  match o with Some s => MStr s | None => MNull end.

(** The initial-call branch (lines 116-176). *)
Definition decideInitial (rules : CadenceRulesConfig)
    (handoffDispositions : list string)
    (hopperId leadIdDb : Z) (leadData : LeadRow)
    (event : RetellCallOutcomePayload)
    (now : Timestamp) : Result ContactCadenceState :=
  let cs :=
    mkState (lead_phone_number leadData)
      (Some (pretty leadIdDb))
      None
      (Some (disposition event))
      (Some (call_ended_timestamp event))
      None
      (Some 1)
      (Some PENDING)
      (Some (<["lastName" := metaOfString (last_name leadData)]>
               (<["firstName" := metaOfString (first_name leadData)]>
                  (<["initialCallHopperId" := MNum hopperId]>
                     (<["retellCallId" := MStr (call_id event)]>
                        (default ∅ (lead_metadata leadData)))))))
      None
      (lead_state leadData)
      (zip_code leadData)
      (hopper_priority leadData) in
  let dispositionRuleKey := str_or (lastCallDisposition cs) "DEFAULT" in
  let currentRule := lookupOrDefault rules dispositionRuleKey in
  match ruleDefaultPriority currentRule with
  | Throw => Throw
  | Ok dp =>
      applyRules handoffDispositions dispositionRuleKey currentRule now
        (set_hopperPriority (nullish dp (hopperPriority cs)) cs)
  end.

End Webhook.

(** ** The outcome webhook written against the flat rule table *)

Module FlatWebhook.
Import FlatCadenceRules.

(** [rule.attempts[i]] for a JavaScript number [i]. *)
Definition attemptAt (r : CadenceDispositionRule) (i : Z)
    : option CadenceAttemptRule :=
  if 0 <=? i then attempts r !! Z.to_nat i else None.

(** NEW_LEAD for the first outcome of a contact that had no stored state,
    the disposition (or DEFAULT) otherwise. *)
Definition effectiveRuleKey (fetched : option ContactCadenceState)
    (cs : ContactCadenceState) : string :=
  let dispositionKey := str_or (lastCallDisposition cs) "DEFAULT" in
  if bool_decide (attemptCount cs = Some 1)
     && negb (bool_decide (is_Some fetched))
  then "NEW_LEAD" else dispositionKey.

Definition decide (rules : CadenceRulesConfig)
    (handoffDispositions : list string)
    (fetched : option ContactCadenceState)
    (event : RetellCallOutcomePayload)
    (webhookTime now : Timestamp) : Result ContactCadenceState :=
  let cs0 :=
    match fetched with
    | Some f => set_attemptCount (Some (num_or0 (attemptCount f) + 1)) f
    | None =>
        set_status (Some PENDING)
          (set_attemptCount (Some 1) (bare (phone_number event)))
    end in
  let cs := Webhook.recordOutcome event webhookTime cs0 in
  let n := num_or0 (attemptCount cs) in
  match lookupOrDefault rules (effectiveRuleKey fetched cs) with
  | Undefined => Throw   (* [rule.finalStatusOnExhaustion] on undefined *)
  | Inherited =>
      if includes handoffDispositions (disposition event) then
        Ok (set_nextCallTimestamp None (set_status (Some PAUSED) cs))
      else Throw         (* [rule.attempts.length] on undefined *)
  | OwnRule rule =>
      if bool_decide (finalStatusOnExhaustion rule = FinalSuccess)
         && bool_decide (maxAttempts rule = 1)
      then
        Ok (set_nextCallTimestamp None
              (set_status (Some COMPLETED_SUCCESS) cs))
      else if includes handoffDispositions (disposition event) then
        Ok (set_nextCallTimestamp None (set_status (Some PAUSED) cs))
      else if maxAttempts rule <=? n then
        Ok (set_nextCallTimestamp None
              (set_status
                 (Some (statusOfFinal (finalStatusOnExhaustion rule))) cs))
      else
        let nextAttemptDelayConfigIndex := n in
        if nextAttemptDelayConfigIndex <? Z.of_nat (length (attempts rule))
        then
          match attemptAt rule nextAttemptDelayConfigIndex with
          | Some a =>
              Ok (set_nextCallTimestamp
                    (Some (now + delayMinutes a * 60000))
                    (set_status (Some ACTIVE) cs))
          | None => Throw  (* [.delayMinutes] of an absent element *)
          end
        else
          Ok (set_nextCallTimestamp None
                (set_status
                   (Some (statusOfFinal (finalStatusOnExhaustion rule)))
                   cs))
  end.

End FlatWebhook.

(** ** The Contact State Store ([manage_contact_state])

    The Twilio Sync service holds one document per phone number and the list
    [active_cadence_contacts].  [documents(p).update({data})] replaces the
    data of document [p] (creating it when absent); [syncListItems.create]
    appends an item; an item is removed through its index. *)

Record SyncService := mkSync {
  documents : gmap string ContactCadenceState;
  (** [item.data.phoneNumber] of every item of the list, in list order;
      [None] for the list: it does not exist (a 404). *)
  activeList : option (list (option string));
  (** documents whose fetch fails with an error other than 404 *)
  unreachable : gset string
}.

Inductive Fetched :=
  | Found (st : ContactCadenceState)
  | NotFound                (* 404: [getContactState] returns null *)
  | FetchError.             (* any other error: [getContactState] rethrows *)

Definition getContactState (sync : SyncService) (phone : string) : Fetched :=
  if bool_decide (phone ∈ unreachable sync) then FetchError
  else match documents sync !! phone with
       | Some st => Found st
       | None => NotFound
       end.

(** [['ACTIVE', 'PENDING'].includes(s)] *)
Definition isActiveOrPending (s : option Status) : bool :=
  match s with
  | Some ACTIVE | Some PENDING => true
  | _ => false
  end.

(** [['COMPLETED_SUCCESS', 'COMPLETED_EXHAUSTED', 'ERROR', 'PAUSED'].includes(s)] *)
Definition isInactive (s : option Status) : bool :=
  match s with
  | Some COMPLETED_SUCCESS | Some COMPLETED_EXHAUSTED
  | Some ERROR | Some PAUSED => true
  | _ => false
  end.

(** [addOrUpdateContact], with the Sync service answering every request. *)
Definition addOrUpdateContact (sync : SyncService)
    (st : ContactCadenceState) : SyncService :=
  let docs := <[phoneNumber st := st]> (documents sync) in
  let items :=
    if isActiveOrPending (status st) then
      (fun l => (l ++ [Some (phoneNumber st)])%list) <$> activeList sync
    else if isInactive (status st) then
      List.filter
        (fun it => negb (bool_decide (it = Some (phoneNumber st))))
        <$> activeList sync
    else activeList sync in
  mkSync docs items (unreachable sync).

(** [nextCallDate <= queryDate], false when the timestamp is missing. *)
Definition isDue (asOf : Timestamp) (c : ContactCadenceState) : bool :=
  match nextCallTimestamp c with
  | Some t => t <=? asOf
  | None => false
  end.

Definition MAX_SAFE_INTEGER : Z := 9007199254740991.

(** The comparator passed to [Array.prototype.sort]. *)
Definition compareContacts (a b : ContactCadenceState) : Z :=
  let priorityA := default MAX_SAFE_INTEGER (hopperPriority a) in
  let priorityB := default MAX_SAFE_INTEGER (hopperPriority b) in
  if negb (priorityA =? priorityB) then priorityA - priorityB
  else
    let timeA := default MAX_SAFE_INTEGER (nextCallTimestamp a) in
    let timeB := default MAX_SAFE_INTEGER (nextCallTimestamp b) in
    timeA - timeB.

(** [Array.prototype.sort] is stable, and a comparator that orders by a key
    determines one stable result: it is computed here by insertion. *)
Fixpoint insertBy {A} (cmp : A → A → Z) (x : A) (l : list A) : list A :=
  match l with
  | [] => [x]
  | y :: l' => if cmp x y <=? 0 then x :: l else y :: insertBy cmp x l'
  end.

Definition sortBy {A} (cmp : A → A → Z) (l : list A) : list A :=
  foldr (insertBy cmp) [] l.

(** The version that sorts by [hopperPriority]. *)
Module Store.

(** The loop over the list items: skip items without a phone number and
    phone numbers already seen, fetch the document, keep it when its status
    is ACTIVE or PENDING. *)
Fixpoint collectActive (sync : SyncService) (items : list (option string))
    (processedPhoneNumbers : gset string) : list ContactCadenceState :=
  match items with
  | [] => []
  | item :: rest =>
      let contactPhoneNumber := str_or item EmptyString in
      if bool_decide (contactPhoneNumber = EmptyString) then
        collectActive sync rest processedPhoneNumbers
      else if bool_decide (contactPhoneNumber ∈ processedPhoneNumbers) then
        collectActive sync rest processedPhoneNumbers
      else
        let seen := {[contactPhoneNumber]} ∪ processedPhoneNumbers in
        match getContactState sync contactPhoneNumber with
        | Found contactState =>
            if isActiveOrPending (status contactState)
            then contactState :: collectActive sync rest seen
            else collectActive sync rest seen
        | NotFound | FetchError => collectActive sync rest seen
        end
  end.

Definition queryContactsDueForCall (sync : SyncService)
    (timestamp : Timestamp) : list ContactCadenceState :=
  match activeList sync with
  | None => []
  | Some items =>
      let allActiveContacts := collectActive sync items ∅ in
      List.filter (isDue timestamp) (sortBy compareContacts allActiveContacts)
  end.

End Store.

(** The version of [src/functions/manage_contact_state.ts], which filters
    inside the loop and returns the contacts in list order. *)
Module StoreUnsorted.

Fixpoint collectDue (sync : SyncService) (timestamp : Timestamp)
    (items : list (option string))
    (processedPhoneNumbers : gset string) : list ContactCadenceState :=
  match items with
  | [] => []
  | item :: rest =>
      let contactPhoneNumber := str_or item EmptyString in
      if bool_decide (contactPhoneNumber = EmptyString)
         || bool_decide (contactPhoneNumber ∈ processedPhoneNumbers)
      then collectDue sync timestamp rest processedPhoneNumbers
      else
        let seen := {[contactPhoneNumber]} ∪ processedPhoneNumbers in
        match getContactState sync contactPhoneNumber with
        | Found contactState =>
            if isActiveOrPending (status contactState)
               && isDue timestamp contactState
            then contactState :: collectDue sync timestamp rest seen
            else collectDue sync timestamp rest seen
        | NotFound | FetchError => collectDue sync timestamp rest seen
        end
  end.

Definition queryContactsDueForCall (sync : SyncService)
    (timestamp : Timestamp) : list ContactCadenceState :=
  match activeList sync with
  | None => []
  | Some items => collectDue sync timestamp items ∅
  end.

End StoreUnsorted.

(** ** The cadence engine (scheduler loop) *)

Module CadenceEngine.

(** The two properties the engine reads from whatever object the rule table
    holds.  A segment rule has no [maxAttempts] property: reading it yields
    [undefined]. *)
Class RuleObject (R : Type) := {
  maxAttemptsOf : R → option Z;
  finalStatusOf : R → FinalStatus
}.

#[export] Instance flatRuleObject
    : RuleObject FlatCadenceRules.CadenceDispositionRule :=
  {| maxAttemptsOf r := Some (FlatCadenceRules.maxAttempts r);
     finalStatusOf := FlatCadenceRules.finalStatusOnExhaustion |}.

#[export] Instance segmentRuleObject
    : RuleObject CadenceRules.CadenceDispositionRule :=
  {| maxAttemptsOf _ := None;
     finalStatusOf := CadenceRules.finalStatusOnExhaustion |}.

Record MyContext := mkContext {
  CADENCE_CALLER_ID : string;
  RETELL_AGENT_ID_MEDICARE : string
}.

Record CallParameters := mkCall {
  To : string;
  From : string;
  agent_id : string;
  CallSid : string;
  lead_id : option string
}.

(** How the environment answers the invocations of one iteration. *)
Inductive StartCallOutcome :=
  | CallAccepted      (* status 200 and [success] *)
  | CallRejected      (* any other response *)
  | CallThrew.        (* the invocation or [JSON.parse] throws *)

Record Responses := mkResponses {
  now : Timestamp;             (* [Date.now()] *)
  finalWriteOk : bool;         (* the addOrUpdate of [finalState] *)
  tokenWriteOk : bool;         (* the addOrUpdate before the call *)
  startCallOutcome : StartCallOutcome;
  revertWriteOk : bool         (* the addOrUpdate after a failed call *)
}.

(** What the loop has done so far: the store, the calls handed to
    [start_call], and the three counters. *)
Record EngineState := mkEngine {
  sync : SyncService;
  placedCalls : list CallParameters;
  processedContacts : Z;
  initiatedCalls : Z;
  errorsEncountered : Z
}.

(** An [addOrUpdate] invocation: the store changes when it is served, and
    the caller's [catch] runs when it is not. *)
Definition invokeAddOrUpdate (ok : bool) (st : ContactCadenceState)
    (s : SyncService) : SyncService :=
  if ok then addOrUpdateContact s st else s.

Definition ruleKeyOf (contact : ContactCadenceState) : string :=
  if bool_decide (attemptCount contact = Some 0)
     && bool_decide (str_or (lastCallDisposition contact) EmptyString = EmptyString)
  then "NEW_LEAD"
  else str_or (lastCallDisposition contact) "DEFAULT".

(** [contact.attemptCount >= dispositionRule.maxAttempts]: false as soon as
    one side is [undefined]. *)
Definition reachedMax (attempts maxA : option Z) : bool :=
  match attempts, maxA with
  | Some n, Some m => m <=? n
  | _, _ => false
  end.

Definition finalStateOf (contact : ContactCadenceState) (f : FinalStatus)
    : ContactCadenceState :=
  set_status (Some (statusOfFinal f)) (bare (phoneNumber contact)).

Definition newCurrentCallSid (t : Timestamp) (contact : ContactCadenceState)
    : string :=
  "TEMP_" +:+ pretty t +:+ "_" +:+ phoneNumber contact.

Definition stateUpdateForCallAttempt (t : Timestamp)
    (contact : ContactCadenceState) : ContactCadenceState :=
  set_currentCallSid (Some (newCurrentCallSid t contact))
    (bare (phoneNumber contact)).

Definition revertState (contact : ContactCadenceState) : ContactCadenceState :=
  set_status (Some ERROR) (bare (phoneNumber contact)).

Definition callParameters (ctx : MyContext) (t : Timestamp)
    (contact : ContactCadenceState) : CallParameters :=
  mkCall (phoneNumber contact) (CADENCE_CALLER_ID ctx)
    (RETELL_AGENT_ID_MEDICARE ctx) (newCurrentCallSid t contact)
    (leadId contact).

Section Loop.
Context {R : Type} `{RuleObject R}.
Variable rules : gmap string R.
Variable ctx : MyContext.

(** The max-attempts test: the final status to move to when
    [contact.attemptCount >= dispositionRule.maxAttempts]. *)
Definition exhaustedWith (contact : ContactCadenceState)
    (dispositionRule : Looked R) : option FinalStatus :=
  match dispositionRule with
  | OwnRule r =>
      if reachedMax (attemptCount contact) (maxAttemptsOf r)
      then Some (finalStatusOf r) else None
  | _ => None
  end.

(** The body of the [for] loop for one due contact.  [Throw] is an
    exception that leaves the loop (the handler's outer [catch]). *)
Definition processContact (contact : ContactCadenceState)
    (env : Responses) (e : EngineState) : Result EngineState :=
  let processed := processedContacts e + 1 in
  let dispositionRule := lookupOrDefault rules (ruleKeyOf contact) in
  match dispositionRule with
  | Undefined => Throw   (* [dispositionRule.maxAttempts] on undefined *)
  | _ =>
      match exhaustedWith contact dispositionRule with
      | Some f =>
          Ok (mkEngine
                (invokeAddOrUpdate (finalWriteOk env)
                   (finalStateOf contact f) (sync e))
                (placedCalls e) processed (initiatedCalls e)
                (if finalWriteOk env then errorsEncountered e
                 else errorsEncountered e + 1))
      | None =>
          if negb (tokenWriteOk env) then
            Ok (mkEngine (sync e) (placedCalls e) processed
                  (initiatedCalls e) (errorsEncountered e + 1))
          else
            let marked :=
              addOrUpdateContact (sync e)
                (stateUpdateForCallAttempt (now env) contact) in
            let calls :=
              (placedCalls e ++ [callParameters ctx (now env) contact])%list in
            match startCallOutcome env with
            | CallAccepted =>
                Ok (mkEngine marked calls processed
                      (initiatedCalls e + 1) (errorsEncountered e))
            | CallRejected | CallThrew =>
                Ok (mkEngine
                      (invokeAddOrUpdate (revertWriteOk env)
                         (revertState contact) marked)
                      calls processed (initiatedCalls e)
                      (errorsEncountered e + 1))
            end
      end
  end.

(** The [for (const contact of dueContacts)] loop. *)
Fixpoint processDueContacts
    (work : list (ContactCadenceState * Responses))
    (e : EngineState) : Result EngineState :=
  match work with
  | [] => Ok e
  | (contact, env) :: rest =>
      match processContact contact env e with
      | Ok e' => processDueContacts rest e'
      | Throw => Throw
      end
  end.
End Loop.

End CadenceEngine.

(** ** The initial dialer: claiming an entry of the hopper *)

Module Hopper.

Inductive HopperStatus :=
  | PENDING_INITIAL_CALL
  | PROCESSING_INITIAL_CALL
  | INITIAL_CALL_COMPLETED
  | ERROR_INITIATING_CALL
  | ERROR_PROCESSING_LEAD_NOT_FOUND
  | ERROR_PROCESSING_UNHANDLED.

#[export] Instance HopperStatus_eq_dec : EqDecision HopperStatus.
Proof. solve_decision. Defined.

Record HopperRow := mkRow {
  id : Z;
  lead_id : string;
  hopper_entry_timestamp : Timestamp;
  priority : option Z;
  hstatus : HopperStatus
}.

Record HopperResult := mkResult {
  hopper_id : Z;
  result_lead_id : string
}.

#[export] Instance HopperRow_eq_dec : EqDecision HopperRow.
Proof. solve_decision. Defined.

#[export] Instance HopperResult_eq_dec : EqDecision HopperResult.
Proof. solve_decision. Defined.

(** [priority ASC NULLS LAST] *)
Definition priorityLeb (a b : option Z) : bool :=
  match a, b with
  | Some x, Some y => x <=? y
  | Some _, None => true
  | None, Some _ => false
  | None, None => true
  end.

(** [ORDER BY hopper_entry_timestamp ASC, priority ASC NULLS LAST] *)
Definition orderLeb (a b : HopperRow) : bool :=
  (hopper_entry_timestamp a <? hopper_entry_timestamp b)
  || ((hopper_entry_timestamp a =? hopper_entry_timestamp b)
      && priorityLeb (priority a) (priority b)).

(** A row the inner [SELECT ... FOR UPDATE SKIP LOCKED] may return: it has
    status PENDING_INITIAL_CALL and no other transaction holds its lock. *)
Definition candidate (locked : list Z) (r : HopperRow) : bool :=
  bool_decide (hstatus r = PENDING_INITIAL_CALL)
  && negb (bool_decide (id r ∈ locked)).

(** [ORDER BY ... LIMIT 1] over the candidates: the first row in the
    order (the earliest in the table among equals). *)
Fixpoint selectNext (locked : list Z) (tbl : list HopperRow)
    : option HopperRow :=
  match tbl with
  | [] => None
  | r :: rest =>
      match selectNext locked rest with
      | Some best =>
          if candidate locked r && orderLeb r best then Some r
          else Some best
      | None => if candidate locked r then Some r else None
      end
  end.

(** [UPDATE hopper SET status = 'PROCESSING_INITIAL_CALL' WHERE id = i] *)
Definition markProcessing (i : Z) (tbl : list HopperRow) : list HopperRow :=
  map (fun r =>
         if bool_decide (id r = i)
         then mkRow (id r) (lead_id r) (hopper_entry_timestamp r)
                (priority r) PROCESSING_INITIAL_CALL
         else r) tbl.

(** [fetchAndLockQuery] run by a single invocation on its own. *)
Definition fetchAndLock (tbl : list HopperRow)
    : list HopperRow * option HopperResult :=
  match selectNext [] tbl with
  | Some r => (markProcessing (id r) tbl, Some (mkResult (id r) (lead_id r)))
  | None => (tbl, None)
  end.

(** *** Concurrent invocations

    Each invocation runs [fetchAndLockQuery] as one transaction: the inner
    select locks the row it returns and skips the rows locked by others;
    the update and the commit then set the status and release the lock. *)
Inductive Claimer :=
  | Waiting
  | Holding (r : HopperRow)
  | Returned (res : option HopperResult).

#[export] Instance Claimer_eq_dec : EqDecision Claimer.
Proof. solve_decision. Defined.

Record Config := mkConfig {
  table : list HopperRow;
  claimers : list Claimer
}.

Definition heldId (c : Claimer) : option Z :=
  match c with Holding r => Some (id r) | _ => None end.

Definition claimedId (c : Claimer) : option Z :=
  match c with Returned (Some res) => Some (hopper_id res) | _ => None end.

(** The rows locked by a transaction in flight. *)
Definition lockedIds (cs : list Claimer) : list Z := omap heldId cs.

(** The entries handed to a claimer. *)
Definition claimedIds (cs : list Claimer) : list Z := omap claimedId cs.

Definition pendingIds (tbl : list HopperRow) : list Z :=
  map id (List.filter (candidate []) tbl).

(** [r] is a first candidate of [tbl] in the order. *)
Definition isNext (locked : list Z) (tbl : list HopperRow) (r : HopperRow)
    : Prop :=
  In r tbl ∧ candidate locked r = true ∧
  ∀ r', In r' tbl → candidate locked r' = true → orderLeb r r' = true.

Inductive step : Config → Config → Prop :=
  | step_lock tbl cs1 cs2 r :
      isNext (lockedIds (cs1 ++ Waiting :: cs2)) tbl r →
      step (mkConfig tbl (cs1 ++ Waiting :: cs2))
           (mkConfig tbl (cs1 ++ Holding r :: cs2))
  | step_none tbl cs1 cs2 :
      (∀ r, In r tbl →
            candidate (lockedIds (cs1 ++ Waiting :: cs2)) r = false) →
      step (mkConfig tbl (cs1 ++ Waiting :: cs2))
           (mkConfig tbl (cs1 ++ Returned None :: cs2))
  | step_commit tbl cs1 cs2 r :
      step (mkConfig tbl (cs1 ++ Holding r :: cs2))
           (mkConfig (markProcessing (id r) tbl)
              (cs1 ++ Returned (Some (mkResult (id r) (lead_id r))) :: cs2)).

Inductive steps : Config → Config → Prop :=
  | steps_refl c : steps c c
  | steps_step c1 c2 c3 : step c1 c2 → steps c2 c3 → steps c1 c3.

Definition initial (tbl : list HopperRow) (n : nat) : Config :=
  mkConfig tbl (replicate n Waiting).

Definition isReturned (c : Claimer) : bool :=
  match c with Returned _ => true | _ => false end.

Definition finished (c : Config) : bool := forallb isReturned (claimers c).

End Hopper.

(** ** Vocabulary of the statements *)

(** The validation at the head of the webhook handler: a payload with an
    empty [twilio_call_sid], [phone_number] or [disposition] is rejected
    with a 400 before any state is read. *)
Definition payloadValid (event : RetellCallOutcomePayload) : bool :=
  negb (bool_decide (twilio_call_sid event = EmptyString))
  && negb (bool_decide (phone_number event = EmptyString))
  && negb (bool_decide (disposition event = EmptyString)).

Definition mapResult {A B} (f : A → B) (r : Result A) : Result B :=
  match r with Ok a => Ok (f a) | Throw => Throw end.

(** A record without the two values read from the clock: the scheduled
    [nextCallTimestamp] and [metadata.lastWebhookTimestamp]. *)
Definition eraseClock (s : ContactCadenceState) : ContactCadenceState :=
  set_nextCallTimestamp None
    (set_metadata (delete "lastWebhookTimestamp" <$> metadata s) s).


(** The attempt count after the increment of the decision step. *)
Definition incremented (fetched : option ContactCadenceState) : Z :=
  match fetched with
  | Some f => num_or0 (attemptCount f) + 1
  | None => 1
  end.


(** The order of the due list in words: priority ascending with a missing
    priority last, ties broken by nextCallTimestamp ascending. *)
Definition priorityBefore (a b : option Z) : Prop :=
  match a, b with
  | Some x, Some y => x < y
  | Some _, None => True
  | None, _ => False
  end.

Definition timeNotAfter (a b : option Timestamp) : Prop :=
  match a, b with
  | Some x, Some y => x ≤ y
  | _, None => True
  | None, Some _ => False
  end.

Definition dueOrder (a b : ContactCadenceState) : Prop :=
  priorityBefore (hopperPriority a) (hopperPriority b)
  ∨ (hopperPriority a = hopperPriority b
     ∧ timeNotAfter (nextCallTimestamp a) (nextCallTimestamp b)).

(** The comparator's verdict "a is not after b". *)
Definition notAfter (a b : ContactCadenceState) : Prop :=
  compareContacts a b ≤ 0.

(** Every stored priority is below the value that stands in for a missing
    priority. *)
Definition prioritiesBelowSentinel (sync : SyncService) : Prop :=
  ∀ phone d x,
    documents sync !! phone = Some d →
    hopperPriority d = Some x → x < MAX_SAFE_INTEGER.

Definition dueContact (phone : string) (next : Timestamp)
    (prio : option Z) : ContactCadenceState :=
  mkState phone None None (Some "NO_ANSWER") None (Some next) (Some 1)
    (Some ACTIVE) None None None None prio.

(** Two due contacts: the first carries the largest safe integer as its
    priority, the second has none and is due earlier. *)
Definition sentinelStore : SyncService :=
  mkSync
    (<["+15550101" := dueContact "+15550101" 200 (Some MAX_SAFE_INTEGER)]>
       (<["+15550102" := dueContact "+15550102" 100 None]> ∅))
    (Some [Some "+15550101"; Some "+15550102"])
    ∅.

Definition smallStore : SyncService :=
  mkSync
    (<["+15550101" := dueContact "+15550101" 200 (Some 50)]>
       (<["+15550102" := dueContact "+15550102" 100 None]>
          (<["+15550103" := dueContact "+15550103" 900 (Some 10)]> ∅)))
    (Some [Some "+15550102"; Some "+15550101"; None; Some "+15550103";
           Some "+15550101"; Some "+15550199"])
    ∅.

(** A contact whose full record is stored and listed as active. *)
Definition storedContact : ContactCadenceState :=
  mkState "+15550110" (Some "42") (Some "CA10") (Some "NO_ANSWER")
    (Some 5000) (Some 1206000) (Some 3) (Some ACTIVE) None None None None
    (Some 50).

Definition storeWithContact : SyncService :=
  mkSync (<["+15550110" := storedContact]> ∅) (Some [Some "+15550110"]) ∅.

Definition engineContext : CadenceEngine.MyContext :=
  CadenceEngine.mkContext "+15550000" "agent-medicare".

Definition servedResponses : CadenceEngine.Responses :=
  CadenceEngine.mkResponses 2000000 true true CadenceEngine.CallAccepted true.

Definition engineStart (s : SyncService) : CadenceEngine.EngineState :=
  CadenceEngine.mkEngine s [] 0 0 0.

(** What every reachable configuration of the concurrent claimers satisfies,
    [tbl0] being the table they started from: the ids are those of [tbl0];
    no two transactions hold the same row; a held row is still PENDING; the
    PENDING ids of [tbl0] are split between the rows still PENDING and the
    rows handed out; and once a claimer came back empty-handed, every row
    still PENDING is held by a transaction in flight. *)
Definition claimInvariant (tbl0 : list Hopper.HopperRow) (c : Hopper.Config)
    : Prop :=
  map Hopper.id (Hopper.table c) = map Hopper.id tbl0
  ∧ NoDup (Hopper.lockedIds (Hopper.claimers c))
  ∧ (∀ i, i ∈ Hopper.lockedIds (Hopper.claimers c) →
          i ∈ Hopper.pendingIds (Hopper.table c))
  ∧ Hopper.pendingIds (Hopper.table c)
      ++ Hopper.claimedIds (Hopper.claimers c)
    ≡ₚ Hopper.pendingIds tbl0
  ∧ (Hopper.Returned None ∈ Hopper.claimers c →
     ∀ i, i ∈ Hopper.pendingIds (Hopper.table c) →
          i ∈ Hopper.lockedIds (Hopper.claimers c)).

(** A hopper with two PENDING rows (the second one enqueued first) and one
    row already processed. *)
Definition smallHopper : list Hopper.HopperRow :=
  [ Hopper.mkRow 1 "lead-1" 2000 (Some 5) Hopper.PENDING_INITIAL_CALL;
    Hopper.mkRow 2 "lead-2" 1000 None Hopper.PENDING_INITIAL_CALL;
    Hopper.mkRow 3 "lead-3" 500 (Some 1) Hopper.INITIAL_CALL_COMPLETED ].

Definition hopperRow1 : Hopper.HopperRow :=
  Hopper.mkRow 1 "lead-1" 2000 (Some 5) Hopper.PENDING_INITIAL_CALL.
Definition hopperRow2 : Hopper.HopperRow :=
  Hopper.mkRow 2 "lead-2" 1000 None Hopper.PENDING_INITIAL_CALL.

(** Where three concurrent claimers leave [smallHopper]: the first took row
    2, the second row 1, the third found every PENDING row locked. *)
Definition smallHopperClaimed : Hopper.Config :=
  Hopper.mkConfig
    (Hopper.markProcessing 1 (Hopper.markProcessing 2 smallHopper))
    [ Hopper.Returned (Some (Hopper.mkResult 2 "lead-2"));
      Hopper.Returned (Some (Hopper.mkResult 1 "lead-1"));
      Hopper.Returned None ].



(** ** The handler of [manage_contact_state] *)

Module StoreHandler.

Inductive ManageContactStateEvent :=
  | GetAction (phoneNumber : string)
  | AddOrUpdateAction (st : ContactCadenceState)
  | QueryDueAction (timestamp : Timestamp).

(** What the invocation answers.  The handler hands plain objects to
    [callback], so a contact that is not found is a 200 whose body is
    [{ success: false, message: 'Contact not found' }]; an error that
    reaches the handler's [catch] is a 500. *)
Inductive ManageResponse :=
  | StateBody (st : ContactCadenceState)
  | ContactNotFound
  | UpdateResult (success : bool)
  | DueBody (dueContacts : list ContactCadenceState)
  | InternalError.

Definition handler (sync : SyncService) (event : ManageContactStateEvent)
    : ManageResponse * SyncService :=
  match event with
  | GetAction phone =>
      match getContactState sync phone with
      | Found st => (StateBody st, sync)
      | NotFound => (ContactNotFound, sync)
      | FetchError => (InternalError, sync)
      end
  | AddOrUpdateAction st => (UpdateResult true, addOrUpdateContact sync st)
  | QueryDueAction timestamp =>
      (DueBody (Store.queryContactsDueForCall sync timestamp), sync)
  end.

End StoreHandler.

(** ** Tracking ids of initial calls

    The initial dialer names a call
    [initial_H${hopper_id}_L${lead_id}_${Date.now()}]; the outcome webhook
    recognises such an id with [startsWith('initial_H')], takes it apart with
    [/^initial_H(\d+)_L(\d+)_(\d+)$/] and reads the first two groups with
    [parseInt(_, 10)]. *)

Module TrackingId.











(** The id the initial dialer builds. *)
Definition trackingId (hopper_id : Z) (lead_id : string) (dateNow : Timestamp)
    : string :=
  "initial_H" +:+ pretty hopper_id +:+ "_L" +:+ lead_id +:+ "_"
    +:+ pretty dateNow.

End TrackingId.

(** ** The outcome webhook written against the flat rule table: the handler *)

Module FlatWebhookHandler.

Record MyContext := mkContext {
  RETELL_HANDOFF_DISPOSITIONS : option string;
  SEGMENT_WRITE_KEY : option string;
  TWILIO_WORKSPACE_SID : option string;
  TWILIO_WORKFLOW_SID : option string
}.

(** How the environment answers the two invocations of
    [manage_contact_state], and the two readings of the clock. *)
Record Invocations := mkInvocations {
  getServed : bool;
  writeServed : bool;
  webhookTime : Timestamp;
  now : Timestamp
}.

Record Outcome := mkOutcome {
  statusCode : Z;
  store : SyncService;
  contactState : option ContactCadenceState;
  segmentEvent : bool;     (* 'Retell Call Outcome Processed' is sent *)
  handoffTask : bool       (* a TaskRouter task is requested *)
}.

(** A configuration value that is set and not empty. *)
Definition configured (v : option string) : bool :=
  negb (bool_decide (str_or v EmptyString = EmptyString)).

(** Step 1: the state the webhook works from.  Anything but a 200 that
    carries a state counts as "no prior state". *)
Definition fetchContactState (served : bool) (sync : SyncService)
    (phone : string) : option ContactCadenceState :=
  if served then
    match StoreHandler.handler sync (StoreHandler.GetAction phone) with
    | (StoreHandler.StateBody st, _) => Some st
    | _ => None
    end
  else None.

(** The condition under which step 6 requests a hand-off task. *)
Definition wantsHandoffTask (ctx : MyContext)
    (handoffDispositions : list string)
    (event : RetellCallOutcomePayload) (cs : ContactCadenceState) : bool :=
  configured (TWILIO_WORKSPACE_SID ctx)
  && configured (TWILIO_WORKFLOW_SID ctx)
  && (includes handoffDispositions (disposition event)
      || (bool_decide (status cs = Some PAUSED)
          && includes handoffDispositions
               (str_or (lastCallDisposition cs) EmptyString))).

Definition handler (rules : FlatCadenceRules.CadenceRulesConfig)
    (ctx : MyContext) (env : Invocations) (sync : SyncService)
    (event : RetellCallOutcomePayload) : Outcome :=
  if negb (payloadValid event) then mkOutcome 400 sync None false false
  else
    let fetched := fetchContactState (getServed env) sync (phone_number event) in
    let handoffDispositions :=
      handoffDispositionsOf (RETELL_HANDOFF_DISPOSITIONS ctx) in
    match FlatWebhook.decide rules handoffDispositions fetched event
            (webhookTime env) (now env) with
    | Throw => mkOutcome 500 sync None false false
    | Ok cs =>
        mkOutcome 200
          (if writeServed env then addOrUpdateContact sync cs else sync)
          (Some cs)
          (configured (SEGMENT_WRITE_KEY ctx))
          (wantsHandoffTask ctx handoffDispositions event cs)
    end.

End FlatWebhookHandler.

(** ** The cadence engine: one run of the handler *)

Module EngineRun.
Import CadenceEngine.

(** The due list paired with the environment's answers, iteration by
    iteration. *)
Definition workOf (dueContacts : list ContactCadenceState)
    (envOf : nat → Responses) : list (ContactCadenceState * Responses) :=
  zip dueContacts (map envOf (seq 0 (length dueContacts))).

(** Steps 1 and 2 of the handler once the due query has been answered:
    the loop over [queryDue(currentTimestamp)], from fresh counters. *)
Definition run {R : Type} `{RuleObject R} (rules : gmap string R)
    (ctx : MyContext) (s : SyncService) (currentTimestamp : Timestamp)
    (envOf : nat → Responses) : Result EngineState :=
  processDueContacts rules ctx
    (workOf (Store.queryContactsDueForCall s currentTimestamp) envOf)
    (mkEngine s [] 0 0 0).

End EngineRun.

(** ** The initial dialer: the handler *)

Module InitialDialer.
Import Hopper.

Record MyContext := mkContext {
  INITIAL_CALL_CALLER_ID : string;
  RETELL_AGENT_ID_INITIAL_CALL : string
}.

Record LeadDetails := mkLeadDetails {
  lead_details_id : string;
  lead_phone : string;
  lead_first_name : option string;
  lead_last_name : option string
}.

(** The two tables the handler works on.  The column
    [initial_call_provider_sid] of [hopper] is kept beside the rows, by
    row id. *)
Record Db := mkDb {
  hopper : list HopperRow;
  initial_call_provider_sid : gmap Z string;
  leads : gmap string LeadDetails
}.

Record StartCallParams := mkStartCall {
  To : string;
  From : string;
  agent_id : string;
  CallSid : string;
  meta_lead_id : string;
  meta_hopper_id : Z;
  meta_first_name : option string;
  meta_last_name : option string
}.

(** The [status] of the response body. *)
Inductive ResponseStatus :=
  | no_leads_found
  | error_lead_not_found
  | call_initiated
  | error_initiating_call
  | internal_server_error.

(** The environment of one invocation: the clock, the answer of
    [start_call], which of the handler's queries throws (counted from 1 in
    the order they are issued), and whether the query of the [catch] block
    is served. *)
Record Environment := mkEnvironment {
  dateNow : Timestamp;
  startCallOutcome : CadenceEngine.StartCallOutcome;
  failingQuery : option nat;
  recoveryServed : bool
}.

Record Outcome := mkOutcome {
  statusCode : Z;
  responseStatus : ResponseStatus;
  db : Db;
  startCall : option StartCallParams
}.

(** [UPDATE hopper SET status = s WHERE id = i] *)
Definition setStatus (i : Z) (s : HopperStatus) (tbl : list HopperRow)
    : list HopperRow :=
  map (fun r =>
         if bool_decide (id r = i)
         then mkRow (id r) (lead_id r) (hopper_entry_timestamp r)
                (priority r) s
         else r) tbl.

(** [UPDATE hopper SET status = 'ERROR_PROCESSING_UNHANDLED'
     WHERE id = i AND status = 'PROCESSING_INITIAL_CALL'] *)
Definition markUnhandled (i : Z) (tbl : list HopperRow) : list HopperRow :=
  map (fun r =>
         if bool_decide (id r = i)
            && bool_decide (hstatus r = PROCESSING_INITIAL_CALL)
         then mkRow (id r) (lead_id r) (hopper_entry_timestamp r)
                (priority r) ERROR_PROCESSING_UNHANDLED
         else r) tbl.

Definition withHopper (tbl : list HopperRow) (d : Db) : Db :=
  mkDb tbl (initial_call_provider_sid d) (leads d).

Definition fails (env : Environment) (n : nat) : bool :=
  bool_decide (failingQuery env = Some n).

(** The [catch] block: the claimed entry, if any, is marked
    ERROR_PROCESSING_UNHANDLED when that query is served. *)
Definition unhandled (env : Environment) (d : Db)
    (hopperEntry : option HopperResult) (call : option StartCallParams)
    : Outcome :=
  mkOutcome 500 internal_server_error
    (match hopperEntry with
     | Some res =>
         (* [if (hopperEntry && hopperEntry.hopper_id)]: 0 is falsy *)
         if recoveryServed env && negb (bool_decide (hopper_id res = 0))
         then withHopper (markUnhandled (hopper_id res) (hopper d)) d
         else d
     | None => d
     end)
    call.

Definition handler (ctx : MyContext) (env : Environment) (d : Db) : Outcome :=
  if fails env 1 then unhandled env d None None
  else
    match fetchAndLock (hopper d) with
    | (_, None) => mkOutcome 200 no_leads_found d None
    | (claimed, Some hopperEntry) =>
        let d1 := withHopper claimed d in
        if fails env 2 then unhandled env d1 (Some hopperEntry) None
        else
          match leads d !! result_lead_id hopperEntry with
          | None =>
              if fails env 3 then unhandled env d1 (Some hopperEntry) None
              else
                mkOutcome 500 error_lead_not_found
                  (withHopper
                     (setStatus (hopper_id hopperEntry)
                        ERROR_PROCESSING_LEAD_NOT_FOUND claimed) d1)
                  None
          | Some leadDetails =>
              let trackingId :=
                TrackingId.trackingId (hopper_id hopperEntry)
                  (result_lead_id hopperEntry) (dateNow env) in
              if fails env 3 then unhandled env d1 (Some hopperEntry) None
              else
                let d2 :=
                  mkDb claimed
                    (<[hopper_id hopperEntry := trackingId]>
                       (initial_call_provider_sid d))
                    (leads d) in
                let startCallParams :=
                  mkStartCall (lead_phone leadDetails)
                    (INITIAL_CALL_CALLER_ID ctx)
                    (RETELL_AGENT_ID_INITIAL_CALL ctx) trackingId
                    (lead_details_id leadDetails) (hopper_id hopperEntry)
                    (lead_first_name leadDetails)
                    (lead_last_name leadDetails) in
                match startCallOutcome env with
                | CadenceEngine.CallAccepted =>
                    mkOutcome 200 call_initiated d2 (Some startCallParams)
                | _ =>
                    if fails env 4
                    then unhandled env d2 (Some hopperEntry)
                           (Some startCallParams)
                    else
                      mkOutcome 500 error_initiating_call
                        (withHopper
                           (setStatus (hopper_id hopperEntry)
                              ERROR_INITIATING_CALL claimed) d2)
                        (Some startCallParams)
                end
          end
    end.

(** Invocations one after the other, each with its own environment. *)
Fixpoint invocations (ctx : MyContext) (envs : list Environment) (d : Db)
    : list Outcome :=
  match envs with
  | [] => []
  | env :: rest =>
      let o := handler ctx env d in o :: invocations ctx rest (db o)
  end.

End InitialDialer.

(** ** Lead intake: [src/functions/ingest_lead.ts] *)

Module IngestLead.
Import Hopper.

(** The payload, with the fields the interface lists.  A property that is
    [undefined] or [null] is [None]. *)
Record LeadData := mkLeadData {
  phone_number : option string;
  first_name : option string;
  last_name : option string;
  email : option string;
  address_1 : option string;
  city : option string;
  state : option string;
  zip_code : option string;
  date_of_birth : option string;
  gender : option string;
  medicare_id : option string;
  medicaid_id : option string;
  insurance_carrier : option string;
  insurance_plan_name : option string;
  policy_id : option string;
  custom_field_1 : option string;
  hopper_priority : option Z
}.

Inductive FieldValue :=
  | FString (s : string)
  | FNumber (n : Z).

#[export] Instance FieldValue_eq_dec : EqDecision FieldValue.
Proof. solve_decision. Defined.

(** [leadData[field]] *)
Definition fieldOf (leadData : LeadData) (field : string)
    : option FieldValue :=
  if bool_decide (field = "phone_number") then FString <$> phone_number leadData
  else if bool_decide (field = "first_name") then FString <$> first_name leadData
  else if bool_decide (field = "last_name") then FString <$> last_name leadData
  else if bool_decide (field = "email") then FString <$> email leadData
  else if bool_decide (field = "address_1") then FString <$> address_1 leadData
  else if bool_decide (field = "city") then FString <$> city leadData
  else if bool_decide (field = "state") then FString <$> state leadData
  else if bool_decide (field = "zip_code") then FString <$> zip_code leadData
  else if bool_decide (field = "date_of_birth")
  then FString <$> date_of_birth leadData
  else if bool_decide (field = "gender") then FString <$> gender leadData
  else if bool_decide (field = "medicare_id")
  then FString <$> medicare_id leadData
  else if bool_decide (field = "medicaid_id")
  then FString <$> medicaid_id leadData
  else if bool_decide (field = "insurance_carrier")
  then FString <$> insurance_carrier leadData
  else if bool_decide (field = "insurance_plan_name")
  then FString <$> insurance_plan_name leadData
  else if bool_decide (field = "policy_id") then FString <$> policy_id leadData
  else if bool_decide (field = "custom_field_1")
  then FString <$> custom_field_1 leadData
  else if bool_decide (field = "hopper_priority")
  then FNumber <$> hopper_priority leadData
  else None.

Definition allLeadFields : list string :=
  [ "phone_number"; "first_name"; "last_name"; "email"; "address_1"; "city";
    "state"; "zip_code"; "date_of_birth"; "gender"; "medicare_id";
    "medicaid_id"; "insurance_carrier"; "insurance_plan_name"; "policy_id";
    "custom_field_1"; "hopper_priority" ].

(** [xs.join(', ')] *)
Fixpoint join (xs : list string) : string :=
  match xs with
  | [] => EmptyString
  | [x] => x
  | x :: rest => x +:+ ", " +:+ join rest
  end.

(** The state of the loop of [buildLeadInsertQuery]. *)
Record Collected := mkCollected {
  providedFields : list string;
  providedValues : list FieldValue;
  placeholders : list string;
  placeholderIndex : Z
}.

Definition collectField (leadData : LeadData) (acc : Collected)
    (field : string) : Collected :=
  match fieldOf leadData field with
  | Some v =>
      mkCollected (providedFields acc ++ [field])
        (providedValues acc ++ [v])
        (placeholders acc ++ ["$" +:+ pretty (placeholderIndex acc)])
        (placeholderIndex acc + 1)
  | None => acc
  end.

Definition collectFields (leadData : LeadData) (fields : list string)
    : Collected :=
  foldl (collectField leadData) (mkCollected [] [] [] 1) fields.

Record InsertQuery := mkInsertQuery {
  text : string;
  values : list FieldValue
}.

(** [Throw] is the error 'No valid lead data fields provided for insert.' *)
Definition buildLeadInsertQuery (leadData : LeadData) : Result InsertQuery :=
  let c := collectFields leadData allLeadFields in
  match providedFields c with
  | [] => Throw
  | _ =>
      Ok (mkInsertQuery
            ("INSERT INTO leads (" +:+ join (providedFields c)
               +:+ ") VALUES (" +:+ join (placeholders c)
               +:+ ") RETURNING id")
            (providedValues c))
  end.

(** A row of [leads]: its id and the columns that were given a value. *)
Record LeadRow := mkLeadRow {
  lead_row_id : string;
  columns : list (string * FieldValue)
}.

Record Db := mkDb {
  leads : list LeadRow;
  hopper : list HopperRow
}.

(** [SELECT id FROM leads WHERE phone_number = $1] *)
Definition leadsWithPhone (phone : string) (rows : list LeadRow)
    : list LeadRow :=
  List.filter
    (fun r =>
       bool_decide (("phone_number", FString phone) ∈ columns r)) rows.

Inductive ReasonCode :=
  | MISSING_PHONE_NUMBER
  | DUPLICATE_LEAD
  | LEAD_ADDED
  | INTERNAL_SERVER_ERROR.

Record Outcome := mkOutcome {
  statusCode : Z;
  reason_code : ReasonCode;
  response_lead_id : option string;
  db : Db
}.

(** What the database supplies to one invocation: the id of the lead row it
    inserts, the id and the [NOW()] of the hopper row. *)
Record Environment := mkEnvironment {
  newLeadId : string;
  newHopperId : Z;
  nowTimestamp : Timestamp
}.

Definition handler (env : Environment) (d : Db) (event : LeadData) : Outcome :=
  let phone := str_or (phone_number event) EmptyString in
  if bool_decide (phone = EmptyString) then
    mkOutcome 400 MISSING_PHONE_NUMBER None d
  else
    match leadsWithPhone phone (leads d) with
    | existing :: _ =>
        mkOutcome 200 DUPLICATE_LEAD (Some (lead_row_id existing)) d
    | [] =>
        match buildLeadInsertQuery event with
        | Throw => mkOutcome 500 INTERNAL_SERVER_ERROR None d
        | Ok _ =>
            let c := collectFields event allLeadFields in
            let inserted :=
              leads d
              ++ [mkLeadRow (newLeadId env)
                    (zip (providedFields c) (providedValues c))] in
            if bool_decide (newLeadId env = EmptyString) then
              mkOutcome 500 INTERNAL_SERVER_ERROR None
                (mkDb inserted (hopper d))
            else
              mkOutcome 201 LEAD_ADDED (Some (newLeadId env))
                (mkDb inserted
                   (hopper d
                    ++ [mkRow (newHopperId env) (newLeadId env)
                          (nowTimestamp env) (hopper_priority event)
                          PENDING_INITIAL_CALL]))
        end
    end.

End IngestLead.

(** ** Vocabulary of the further statements *)


(** Every document is stored under its own phone number. *)
Definition keyedByPhone (sync : SyncService) : Prop :=
  ∀ phone d, documents sync !! phone = Some d → phoneNumber d = phone.

(** A store in which the active list names one contact twice. *)
Definition duplicateStore : SyncService :=
  mkSync
    (<["+15550101" := dueContact "+15550101" 200 (Some 50)]> ∅)
    (Some [Some "+15550101"; Some "+15550101"])
    ∅.




(** An outcome payload for the contact of [storeWithContact]. *)
Definition storedContactOutcome : RetellCallOutcomePayload :=
  mkPayload "call-10" "CA10b" "+15550110" "BUSY" 7000.

Definition webhookContext : FlatWebhookHandler.MyContext :=
  FlatWebhookHandler.mkContext None None (Some "WS1") (Some "WW1").

Definition servedInvocations : FlatWebhookHandler.Invocations :=
  FlatWebhookHandler.mkInvocations true true 8000 8000.

(** The status in which an invocation of the initial dialer leaves the
    entry it claimed, read off its response. *)
Definition statusLeft (env : InitialDialer.Environment)
    (o : InitialDialer.Outcome) (res : Hopper.HopperResult)
    : Hopper.HopperStatus :=
  match InitialDialer.responseStatus o with
  | InitialDialer.call_initiated => Hopper.PROCESSING_INITIAL_CALL
  | InitialDialer.error_initiating_call => Hopper.ERROR_INITIATING_CALL
  | InitialDialer.error_lead_not_found =>
      Hopper.ERROR_PROCESSING_LEAD_NOT_FOUND
  | _ =>
      if InitialDialer.recoveryServed env
         && negb (bool_decide (Hopper.hopper_id res = 0))
      then Hopper.ERROR_PROCESSING_UNHANDLED
      else Hopper.PROCESSING_INITIAL_CALL
  end.

(** The row the inner SELECT of [fetchAndLockQuery] returns to an
    invocation, if the query is served and finds one. *)
Definition claimOf (env : InitialDialer.Environment) (d : InitialDialer.Db)
    : option Hopper.HopperRow :=
  if InitialDialer.fails env 1 then None
  else Hopper.selectNext [] (InitialDialer.hopper d).

(** The rows claimed by invocations that run one after the other. *)
Fixpoint claimedRows (ctx : InitialDialer.MyContext)
    (envs : list InitialDialer.Environment) (d : InitialDialer.Db)
    : list Hopper.HopperRow :=
  match envs with
  | [] => []
  | env :: rest =>
      let later :=
        claimedRows ctx rest (InitialDialer.db (InitialDialer.handler ctx env d)) in
      match claimOf env d with
      | Some r => r :: later
      | None => later
      end
  end.

(** Everything of a hopper row but its status. *)
Definition rowData (r : Hopper.HopperRow)
    : Z * string * Timestamp * option Z :=
  (Hopper.id r, Hopper.lead_id r, Hopper.hopper_entry_timestamp r,
   Hopper.priority r).

Definition dialerContext : InitialDialer.MyContext :=
  InitialDialer.mkContext "+15550000" "agent-initial".

Definition dialerDb : InitialDialer.Db :=
  InitialDialer.mkDb smallHopper ∅
    (<["lead-2" := InitialDialer.mkLeadDetails "lead-2" "+15550122"
                     (Some "Ada") None]> ∅).

Definition dialerServed : InitialDialer.Environment :=
  InitialDialer.mkEnvironment 1700000000000 CadenceEngine.CallAccepted
    None true.

(** The fields of the list for which the payload carries a value. *)
Definition providedOf (leadData : IngestLead.LeadData)
    (fields : list string) : list string :=
  List.filter (fun f => bool_decide (is_Some (IngestLead.fieldOf leadData f)))
    fields.

(** [$1, ..., $n] *)
Definition placeholdersUpTo (n : nat) : list string :=
  map (fun i => "$" +:+ pretty i) (seqZ 1 (Z.of_nat n)).






(** Map operations stay folded under [simpl]; they are evaluated with
    [vm_compute] where a value is needed. *)
#[local] Arguments insert : simpl never.
#[local] Arguments delete : simpl never.
#[local] Arguments lookup : simpl never.
#[local] Arguments empty : simpl never.
#[local] Arguments singletonM : simpl never.

(** * Properties *)

(** ** The decision step of the outcome webhook *)

Section DecisionStep.
Import CadenceRules Webhook.

Lemma statusOfFinal_not_active f : statusOfFinal f ≠ ACTIVE.
Proof. by destruct f. Qed.

Lemma str_or_nonempty s d : s ≠ EmptyString → str_or (Some s) d = s.
Proof. intros Hs. unfold str_or. by rewrite bool_decide_eq_false_2. Qed.

Lemma payloadValid_disposition event :
  payloadValid event = true → disposition event ≠ EmptyString.
Proof.
  unfold payloadValid. rewrite !andb_true_iff, !negb_true_iff.
  intros [_ Hd]. by apply bool_decide_eq_false_1 in Hd.
Qed.





Lemma recordOutcome_clock event w1 w2 cs :
  eraseClock (recordOutcome event w1 cs) = eraseClock (recordOutcome event w2 cs).
Proof.
  destruct cs. unfold eraseClock, recordOutcome. simpl.
  by rewrite !delete_insert_eq.
Qed.
End DecisionStep.

Section DecisionStepClaims.
Import CadenceRules Webhook.



(** The key read back from the prepared state is the disposition of a
    validated payload. *)
Lemma cadence_key event w cs0 :
  payloadValid event = true →
  str_or (lastCallDisposition (recordOutcome event w cs0)) "DEFAULT"
  = disposition event.
Proof.
  intros Hv. simpl. apply str_or_nonempty.
  by apply payloadValid_disposition.
Qed.








(** The webhook written against the flat table resolves NEW_LEAD for a
    contact without stored state: the same outcome is scheduled an hour
    after it is processed. *)
Example flat_bootstrap_uses_new_lead :
  mapResult nextCallTimestamp
    (FlatWebhook.decide FlatCadenceRules.getCadenceRules
       (handoffDispositionsOf None) None
       (mkPayload "call-1" "CA1" "+15550100" "NO_ANSWER" 0) 90000 90000)
  = Ok (Some (90000 + 60 * 60000)).
Proof. vm_compute. reflexivity. Qed.
End DecisionStepClaims.

Section HandOffAndExhaustion.
Import CadenceRules Webhook.





End HandOffAndExhaustion.

Section ActiveInvariant.
Import CadenceRules Webhook.




End ActiveInvariant.

(** ** The Contact State Store *)

Section StoreQueries.

Lemma in_insertBy {A} (cmp : A → A → Z) x y l :
  In y (insertBy cmp x l) ↔ y = x ∨ In y l.
Proof.
  induction l as [| z l IH]; simpl.
  - intuition.
  - destruct (cmp x z <=? 0); simpl; [intuition |].
    rewrite IH. intuition.
Qed.

Lemma in_sortBy {A} (cmp : A → A → Z) y l :
  In y (sortBy cmp l) ↔ In y l.
Proof.
  induction l as [| z l IH]; simpl; [done |].
  rewrite in_insertBy, IH. intuition.
Qed.

(** What the loop keeps is a stored document, ACTIVE or PENDING. *)
Lemma collectActive_stored sync items seen r :
  In r (Store.collectActive sync items seen) →
  isActiveOrPending (status r) = true
  ∧ ∃ phone, documents sync !! phone = Some r.
Proof.
  revert seen. induction items as [| item rest IH]; intros seen; simpl;
    [done |].
  repeat case_bool_decide; eauto.
  unfold getContactState. case_bool_decide; eauto.
  destruct (documents sync !! _) as [d |] eqn:Hd; eauto.
  destruct (isActiveOrPending (status d)) eqn:Hs; eauto.
  intros [<- | Hin]; eauto.
Qed.

Lemma collectDue_sound sync asOf items seen r :
  In r (StoreUnsorted.collectDue sync asOf items seen) →
  isActiveOrPending (status r) = true ∧ isDue asOf r = true.
Proof.
  revert seen. induction items as [| item rest IH]; intros seen; simpl;
    [done |].
  destruct (_ || _); eauto.
  unfold getContactState. case_bool_decide; eauto.
  destruct (documents sync !! _) as [d |] eqn:Hd; eauto.
  destruct (isActiveOrPending (status d) && isDue asOf d) eqn:Hs; eauto.
  apply andb_true_iff in Hs.
  intros [<- | Hin]; eauto.
Qed.

Lemma isDue_spec asOf r :
  isDue asOf r = true ↔ ∃ t, nextCallTimestamp r = Some t ∧ t ≤ asOf.
Proof.
  unfold isDue. destruct (nextCallTimestamp r) as [t |].
  - rewrite Z.leb_le. split; [eauto |]. by intros (? & [= <-] & ?).
  - split; [done | by intros (? & ? & ?)].
Qed.

Lemma isActiveOrPending_spec s :
  isActiveOrPending s = true ↔ s = Some ACTIVE ∨ s = Some PENDING.
Proof.
  destruct s as [[] |]; simpl;
    (split; [intros; first [discriminate | auto]
            | intros [? | ?]; first [discriminate | reflexivity]]).
Qed.

(** C5: for every query instant and every content of the store, every
    record returned by queryDue (by the sorting version and by the version
    that returns list order) has a nextCallTimestamp that is not later
    than the instant, and status ACTIVE or PENDING. *)
Theorem queryDue_only_due_and_active sync asOf r :
  In r (Store.queryContactsDueForCall sync asOf)
  ∨ In r (StoreUnsorted.queryContactsDueForCall sync asOf) →
  (∃ t, nextCallTimestamp r = Some t ∧ t ≤ asOf)
  ∧ (status r = Some ACTIVE ∨ status r = Some PENDING).
Proof.
  rewrite <- isDue_spec, <- isActiveOrPending_spec.
  unfold Store.queryContactsDueForCall,
    StoreUnsorted.queryContactsDueForCall.
  destruct (activeList sync) as [items |]; [| by intros [[] | []]].
  intros [Hin | Hin].
  - apply filter_In in Hin as [Hin Hdue].
    apply in_sortBy, collectActive_stored in Hin as [Hs _]. done.
  - apply collectDue_sound in Hin as [Hs Hdue]. done.
Qed.

Lemma queryDue_only_due_and_active_witness :
  (∃ t, nextCallTimestamp (dueContact "+15550102" 100 None) = Some t
        ∧ t ≤ 300)
  ∧ (status (dueContact "+15550102" 100 None) = Some ACTIVE
     ∨ status (dueContact "+15550102" 100 None) = Some PENDING).
Proof.
  apply (queryDue_only_due_and_active smallStore 300).
  left. vm_compute. auto.
Defined.
End StoreQueries.

Section StoreOrdering.

Lemma notAfter_total a b : notAfter a b ∨ notAfter b a.
Proof.
  unfold notAfter, compareContacts.
  repeat match goal with |- context [?x =? ?y] =>
    destruct (Z.eqb_spec x y) end; simpl; lia.
Qed.

Lemma notAfter_trans a b c : notAfter a b → notAfter b c → notAfter a c.
Proof.
  unfold notAfter, compareContacts.
  repeat match goal with |- context [?x =? ?y] =>
    destruct (Z.eqb_spec x y) end; simpl; lia.
Qed.

Lemma insertBy_sorted x l :
  StronglySorted notAfter l →
  StronglySorted notAfter (insertBy compareContacts x l).
Proof.
  induction 1 as [| y l Hl IH Hy]; simpl.
  - repeat constructor.
  - destruct (Z.leb_spec (compareContacts x y) 0) as [Hle | Hgt].
    + constructor; [by constructor |].
      constructor; [done |].
      eapply Forall_impl; [exact Hy |].
      intros z Hz. by eapply notAfter_trans.
    + constructor; [done |].
      apply List.Forall_forall. intros z Hz.
      apply in_insertBy in Hz as [-> | Hz].
      * destruct (notAfter_total y x) as [H | H]; [done |].
        unfold notAfter in H. lia.
      * rewrite List.Forall_forall in Hy. by apply Hy.
Qed.

Lemma sortBy_sorted l : StronglySorted notAfter (sortBy compareContacts l).
Proof.
  induction l as [| x l IH]; simpl; [constructor |].
  by apply insertBy_sorted.
Qed.

Lemma filter_sorted {A} (R : A → A → Prop) f l :
  StronglySorted R l → StronglySorted R (List.filter f l).
Proof.
  induction 1 as [| x l Hl IH Hx]; simpl; [constructor |].
  destruct (f x); [| done].
  constructor; [done |].
  apply List.Forall_forall. intros y Hy. apply filter_In in Hy as [Hy _].
  rewrite List.Forall_forall in Hx. by apply Hx.
Qed.

Lemma sorted_weaken {A} (R R' : A → A → Prop) l :
  (∀ a b, In a l → In b l → R a b → R' a b) →
  StronglySorted R l → StronglySorted R' l.
Proof.
  intros Himp Hs. induction Hs as [| x l Hl IH Hx]; [constructor |].
  constructor.
  - apply IH. intros a b Ha Hb. apply Himp; by right.
  - apply List.Forall_forall. intros y Hy. rewrite List.Forall_forall in Hx.
    apply Himp; [by left | by right | by apply Hx].
Qed.

(** Below the sentinel, and among records that have a nextCallTimestamp,
    the comparator's order is the order in words. *)
Lemma notAfter_dueOrder a b :
  (∀ x, hopperPriority a = Some x → x < MAX_SAFE_INTEGER) →
  (∀ x, hopperPriority b = Some x → x < MAX_SAFE_INTEGER) →
  is_Some (nextCallTimestamp a) → is_Some (nextCallTimestamp b) →
  notAfter a b → dueOrder a b.
Proof.
  unfold notAfter, compareContacts, dueOrder.
  intros Ha Hb [ta ->] [tb ->].
  destruct (hopperPriority a) as [pa |], (hopperPriority b) as [pb |];
    cbn [default from_option id priorityBefore timeNotAfter].
  - specialize (Ha pa eq_refl). specialize (Hb pb eq_refl).
    destruct (Z.eqb_spec pa pb) as [-> | Hne]; cbn [negb]; intros Hle.
    + right. split; [done | lia].
    + left. lia.
  - specialize (Ha pa eq_refl).
    destruct (Z.eqb_spec pa MAX_SAFE_INTEGER); [lia | by left].
  - specialize (Hb pb eq_refl).
    destruct (Z.eqb_spec MAX_SAFE_INTEGER pb); cbn [negb]; intros Hle; lia.
  - rewrite Z.eqb_refl. cbn [negb]. intros Hle. right. split; [done | lia].
Qed.

(** C6 (as amended): when every stored priority is below
    Number.MAX_SAFE_INTEGER (the value the comparator substitutes for a
    missing priority), the list returned by the sorting queryDue is sorted
    by priority ascending, records without a priority last, ties broken by
    nextCallTimestamp ascending. *)
Theorem queryDue_sorted sync asOf :
  prioritiesBelowSentinel sync →
  StronglySorted dueOrder (Store.queryContactsDueForCall sync asOf).
Proof.
  intros Hbelow. unfold Store.queryContactsDueForCall.
  destruct (activeList sync) as [items |]; [| constructor].
  eapply sorted_weaken;
    [| apply filter_sorted, sortBy_sorted].
  intros a b Ha Hb.
  apply filter_In in Ha as [Ha Hda], Hb as [Hb Hdb].
  apply in_sortBy, collectActive_stored in Ha as [_ [pa Hpa]].
  apply in_sortBy, collectActive_stored in Hb as [_ [pb Hpb]].
  apply isDue_spec in Hda as (ta & Hta & _), Hdb as (tb & Htb & _).
  apply notAfter_dueOrder; eauto.
Qed.

Lemma smallStore_below : prioritiesBelowSentinel smallStore.
Proof.
  intros phone d x Hd Hx. unfold smallStore in Hd. simpl in Hd.
  repeat (apply lookup_insert_Some in Hd as [[_ <-] | [_ Hd]];
          [simpl in Hx;
           first [discriminate
                 | injection Hx as <-; unfold MAX_SAFE_INTEGER; lia] |]).
  by rewrite lookup_empty in Hd.
Qed.

Lemma queryDue_sorted_witness :
  StronglySorted dueOrder
    [dueContact "+15550101" 200 (Some 50); dueContact "+15550102" 100 None].
Proof.
  exact (queryDue_sorted smallStore 300 smallStore_below).
Defined.

(** C6 (as stated) fails: a due contact whose priority is
    Number.MAX_SAFE_INTEGER ties with a due contact that has no priority,
    and the one without a priority, due earlier, is returned first. *)
Lemma queryDue_sentinel_tie :
  Store.queryContactsDueForCall sentinelStore 300
  = [dueContact "+15550102" 100 None;
     dueContact "+15550101" 200 (Some MAX_SAFE_INTEGER)]
  ∧ ¬ StronglySorted dueOrder
        (Store.queryContactsDueForCall sentinelStore 300).
Proof.
  assert (Store.queryContactsDueForCall sentinelStore 300
          = [dueContact "+15550102" 100 None;
             dueContact "+15550101" 200 (Some MAX_SAFE_INTEGER)]) as Hq
    by (vm_compute; reflexivity).
  split; [exact Hq |].
  rewrite Hq. intros Hs.
  apply StronglySorted_inv in Hs as [_ Hh].
  apply Forall_inv in Hh.
  destruct Hh as [Hp | [Hp _]]; [exact Hp | discriminate Hp].
Qed.

(** The version that filters inside the loop returns the due contacts in the
    order of the active list: here the contact without a priority comes
    before the one with priority 50. *)
Example unsorted_version_keeps_list_order :
  StoreUnsorted.queryContactsDueForCall smallStore 300
  = [dueContact "+15550102" 100 None; dueContact "+15550101" 200 (Some 50)].
Proof. vm_compute. reflexivity. Qed.
End StoreOrdering.

Section StoreWrites.
Import CadenceEngine.

(** C10: addOrUpdate stores exactly the state it is given under the
    contact's phone number, whatever was stored before, and leaves the
    other documents alone; so the partial state the engine writes before
    a call (phoneNumber and currentCallSid only) leaves a document without
    attemptCount, status, lastCallDisposition, lastAttemptTimestamp and
    nextCallTimestamp, and does not touch the active list. *)
Theorem addOrUpdate_replaces_document sync st :
  documents (addOrUpdateContact sync st) !! phoneNumber st = Some st
  ∧ (∀ phone, phone ≠ phoneNumber st →
       documents (addOrUpdateContact sync st) !! phone
       = documents sync !! phone)
  ∧ (∀ t contact,
       let partial := stateUpdateForCallAttempt t contact in
       documents (addOrUpdateContact sync partial) !! phoneNumber contact
       = Some partial
       ∧ attemptCount partial = None
       ∧ status partial = None
       ∧ lastCallDisposition partial = None
       ∧ lastAttemptTimestamp partial = None
       ∧ nextCallTimestamp partial = None
       ∧ activeList (addOrUpdateContact sync partial) = activeList sync).
Proof.
  split; [| split].
  - simpl. apply lookup_insert_eq.
  - intros phone Hne. simpl. by apply lookup_insert_ne.
  - intros t contact. simpl. split; [apply lookup_insert_eq | done].
Qed.

Lemma addOrUpdate_replaces_document_witness :
  documents storeWithContact !! "+15550110" = Some storedContact
  ∧ attemptCount storedContact = Some 3
  ∧ ∃ partial,
      documents
        (addOrUpdateContact storeWithContact
           (stateUpdateForCallAttempt 2000000 storedContact))
        !! "+15550110" = Some partial
      ∧ attemptCount partial = None ∧ status partial = None
      ∧ nextCallTimestamp partial = None.
Proof.
  split; [vm_compute; reflexivity |]. split; [reflexivity |].
  destruct (addOrUpdate_replaces_document storeWithContact storedContact)
    as (_ & _ & Hpartial).
  destruct (Hpartial 2000000 storedContact)
    as (Hdoc & Ha & Hs & _ & _ & Hn & _).
  eexists. split; [exact Hdoc |]. auto.
Defined.
End StoreWrites.

(** ** The cadence engine *)

Section Engine.
Import CadenceEngine.
Context {R : Type} `{RuleObject R}.
Variable rules : gmap string R.
Variable ctx : MyContext.







End Engine.

Section EngineExamples.
Import CadenceEngine.


(** With the segment rule table no rule has a [maxAttempts] property, the
    max-attempts test never succeeds, and the same contact is called. *)
Lemma segment_rules_never_exhaust contact rule :
  exhaustedWith (R := CadenceRules.CadenceDispositionRule) contact rule
  = None.
Proof. by destruct rule as [r | |]; simpl; [destruct (attemptCount contact) |..]. Qed.

Example segment_rules_call_the_contact :
  mapResult placedCalls
    (processContact CadenceRules.getCadenceRules engineContext
       storedContact servedResponses (engineStart storeWithContact))
  = Ok [callParameters engineContext 2000000 storedContact].
Proof. vm_compute. reflexivity. Qed.
End EngineExamples.

(** ** The hopper: concurrent claims *)

Section HopperClaims.
Import Hopper.

Lemma priorityLeb_total a b : priorityLeb a b = true ∨ priorityLeb b a = true.
Proof. destruct a, b; unfold priorityLeb; rewrite ?Z.leb_le; auto; lia. Qed.

Lemma priorityLeb_trans a b c :
  priorityLeb a b = true → priorityLeb b c = true → priorityLeb a c = true.
Proof.
  destruct a, b, c; unfold priorityLeb; rewrite ?Z.leb_le; auto; try done;
    lia.
Qed.

Lemma orderLeb_spec a b :
  orderLeb a b = true ↔
  hopper_entry_timestamp a < hopper_entry_timestamp b
  ∨ (hopper_entry_timestamp a = hopper_entry_timestamp b
     ∧ priorityLeb (priority a) (priority b) = true).
Proof.
  unfold orderLeb.
  rewrite orb_true_iff, andb_true_iff, Z.ltb_lt, Z.eqb_eq. done.
Qed.

Lemma orderLeb_total a b : orderLeb a b = true ∨ orderLeb b a = true.
Proof.
  rewrite !orderLeb_spec.
  destruct (Z.lt_trichotomy (hopper_entry_timestamp a)
              (hopper_entry_timestamp b)) as [Hlt | [Heq | Hgt]].
  - left. by left.
  - destruct (priorityLeb_total (priority a) (priority b));
      [left | right]; right; by split.
  - right. by left.
Qed.

Lemma orderLeb_trans a b c :
  orderLeb a b = true → orderLeb b c = true → orderLeb a c = true.
Proof.
  rewrite !orderLeb_spec.
  intros [? | [? ?]] [? | [? ?]]; try lia.
  right. split; [lia |]. by eapply priorityLeb_trans.
Qed.

Lemma orderLeb_refl a : orderLeb a a = true.
Proof.
  apply orderLeb_spec. right. split; [done |].
  by destruct (priorityLeb_total (priority a) (priority a)).
Qed.

(** The select returns a first candidate in the order, and returns nothing
    only when there is no candidate. *)
Lemma selectNext_isNext locked tbl r :
  selectNext locked tbl = Some r → isNext locked tbl r.
Proof.
  revert r. induction tbl as [| x rest IH]; intros r; simpl; [done |].
  destruct (selectNext locked rest) as [best |] eqn:Hbest.
  - destruct (IH best eq_refl) as (Hin & Hc & Hmin).
    destruct (candidate locked x) eqn:Hx; simpl.
    + destruct (orderLeb x best) eqn:Hle; intros [= <-].
      * split; [by left |]. split; [done |].
        intros r' [<- | Hr'] Hc'; [apply orderLeb_refl |].
        eapply orderLeb_trans; [exact Hle | by apply Hmin].
      * split; [by right |]. split; [done |].
        intros r' [<- | Hr'] Hc'; [| by apply Hmin].
        destruct (orderLeb_total best x) as [? | Hle']; [done |].
        congruence.
    + intros [= <-]. split; [by right |]. split; [done |].
      intros r' [<- | Hr'] Hc'; [congruence | by apply Hmin].
  - destruct (candidate locked x) eqn:Hx; [| done].
    intros [= <-]. split; [by left |]. split; [done |].
    intros r' [<- | Hr'] Hc'; [apply orderLeb_refl |].
    exfalso. clear IH. induction rest as [| y rest IHr]; [done |].
    simpl in Hbest. destruct (selectNext locked rest).
    + by destruct (candidate locked y && orderLeb y h).
    + destruct Hr' as [<- | Hr']; [by rewrite Hc' in Hbest |].
      destruct (candidate locked y); [done | by apply IHr].
Qed.

Lemma selectNext_none locked tbl r :
  selectNext locked tbl = None → In r tbl → candidate locked r = false.
Proof.
  induction tbl as [| x rest IH]; simpl; [done |].
  destruct (selectNext locked rest) as [best |].
  - by destruct (candidate locked x && orderLeb x best).
  - destruct (candidate locked x) eqn:Hx; [done |].
    intros _ [<- | Hr]; [done | by apply IH].
Qed.

Lemma candidate_spec locked r :
  candidate locked r = true ↔
  hstatus r = PENDING_INITIAL_CALL ∧ id r ∉ locked.
Proof.
  unfold candidate.
  rewrite andb_true_iff, negb_true_iff, bool_decide_eq_true,
    bool_decide_eq_false. done.
Qed.

Lemma elem_of_pendingIds i tbl :
  i ∈ pendingIds tbl ↔
  ∃ r, In r tbl ∧ hstatus r = PENDING_INITIAL_CALL ∧ id r = i.
Proof.
  unfold pendingIds. rewrite list_elem_of_In, in_map_iff.
  split.
  - intros (r & <- & Hr). apply filter_In in Hr as [Hr Hc].
    apply candidate_spec in Hc as [Hs _]. eauto.
  - intros (r & Hr & Hs & <-). exists r. split; [done |].
    apply filter_In. split; [done |].
    apply candidate_spec. split; [done | apply not_elem_of_nil].
Qed.

Lemma pendingIds_ids i tbl : i ∈ pendingIds tbl → i ∈ map id tbl.
Proof.
  rewrite elem_of_pendingIds. intros (r & Hr & _ & <-).
  apply list_elem_of_In, in_map_iff. eauto.
Qed.

Lemma markProcessing_ids i tbl : map id (markProcessing i tbl) = map id tbl.
Proof.
  unfold markProcessing. rewrite map_map. apply map_ext.
  intros r. by case_bool_decide.
Qed.

Lemma markProcessing_absent i tbl :
  i ∉ map id tbl → markProcessing i tbl = tbl.
Proof.
  induction tbl as [| r rest IH]; simpl; [done |].
  rewrite not_elem_of_cons. intros [Hne Hrest].
  rewrite bool_decide_eq_false_2 by done. by rewrite IH.
Qed.

(** Marking a PENDING row takes exactly its id out of the PENDING ids. *)
Lemma markProcessing_pending i tbl :
  NoDup (map id tbl) → i ∈ pendingIds tbl →
  pendingIds tbl ≡ₚ i :: pendingIds (markProcessing i tbl).
Proof.
  induction tbl as [| r rest IH]; simpl.
  - intros _ Hi. by apply elem_of_nil in Hi.
  - rewrite NoDup_cons. intros [Hr Hnd] Hi.
    unfold pendingIds in *. simpl in *.
    case_bool_decide as Hid.
    + subst i. rewrite markProcessing_absent by done.
      unfold candidate at 2. simpl.
      destruct (candidate [] r) eqn:Hc; simpl; [done |].
      exfalso. apply Hr. apply pendingIds_ids. exact Hi.
    + destruct (candidate [] r) eqn:Hc; simpl in *.
      * apply elem_of_cons in Hi as [Hi | Hi]; [congruence |].
        rewrite (IH Hnd Hi) at 1. apply Permutation_swap.
      * by apply IH.
Qed.

Lemma markProcessing_pending_elem i j tbl :
  NoDup (map id tbl) → i ∈ pendingIds tbl →
  j ∈ pendingIds (markProcessing i tbl) ↔ j ∈ pendingIds tbl ∧ j ≠ i.
Proof.
  intros Hnd Hi.
  pose proof (markProcessing_pending i tbl Hnd Hi) as Hp.
  assert (NoDup (pendingIds tbl)) as Hndp.
  { unfold pendingIds. clear -Hnd.
    induction tbl as [| r rest IH]; simpl; [constructor |].
    apply NoDup_cons in Hnd as [Hr Hnd].
    destruct (candidate [] r); simpl; [| by apply IH].
    apply NoDup_cons. split; [| by apply IH].
    intros Hin. apply Hr. by apply (pendingIds_ids (id r) rest). }
  rewrite Hp in Hndp. apply NoDup_cons in Hndp as [Hni _].
  rewrite Hp, elem_of_cons. split.
  - intros Hj. split; [by right |]. by intros ->.
  - by intros [[-> | Hj] Hne].
Qed.
End HopperClaims.

Section HopperConcurrency.
Import Hopper.

Lemma lockedIds_middle cs1 c cs2 :
  lockedIds (cs1 ++ c :: cs2)
  = lockedIds cs1 ++ option_list (heldId c) ++ lockedIds cs2.
Proof.
  unfold lockedIds. rewrite omap_app. simpl. by destruct (heldId c).
Qed.

Lemma claimedIds_middle cs1 c cs2 :
  claimedIds (cs1 ++ c :: cs2)
  = claimedIds cs1 ++ option_list (claimedId c) ++ claimedIds cs2.
Proof.
  unfold claimedIds. rewrite omap_app. simpl. by destruct (claimedId c).
Qed.

Lemma returned_none_middle cs1 c c' cs2 :
  c' ≠ Returned None →
  Returned None ∈ cs1 ++ c' :: cs2 → Returned None ∈ cs1 ++ c :: cs2.
Proof.
  intros Hne. rewrite !elem_of_app, !elem_of_cons.
  intros [? | [? | ?]]; auto. congruence.
Qed.

Lemma pendingIds_nodup tbl : NoDup (map id tbl) → NoDup (pendingIds tbl).
Proof.
  unfold pendingIds. induction tbl as [| r rest IH]; simpl; [constructor |].
  rewrite NoDup_cons. intros [Hr Hnd].
  destruct (candidate [] r); simpl; [| by apply IH].
  apply NoDup_cons. split; [| by apply IH].
  intros Hin. apply Hr. by apply (pendingIds_ids (id r) rest).
Qed.

Variable tbl0 : list HopperRow.
Hypothesis ids_unique : NoDup (map id tbl0).

Lemma claimInvariant_initial n : claimInvariant tbl0 (initial tbl0 n).
Proof.
  assert (lockedIds (replicate n Waiting) = []) as Hl
    by (induction n; simpl; auto).
  assert (claimedIds (replicate n Waiting) = []) as Hc
    by (induction n; simpl; auto).
  unfold claimInvariant, initial. simpl. rewrite Hl, Hc.
  split; [done |]. split; [constructor |].
  split; [by intros i Hi; apply elem_of_nil in Hi |].
  split; [by rewrite app_nil_r |].
  intros Hin. apply elem_of_replicate in Hin as [Hin _]. discriminate.
Qed.

Lemma claimInvariant_step c c' :
  claimInvariant tbl0 c → step c c' → claimInvariant tbl0 c'.
Proof.
  intros (Hids & Hnd & Hheld & Hsplit & Hnone) Hstep.
  destruct Hstep as [tbl cs1 cs2 r Hnext | tbl cs1 cs2 Hno | tbl cs1 cs2 r];
    unfold claimInvariant in *; simpl in *;
    rewrite ?lockedIds_middle, ?claimedIds_middle in *; simpl in *.
  - (* the select locks [r] *)
    destruct Hnext as (Hin & Hc & _).
    apply candidate_spec in Hc as [Hst Hfree].
    split; [done |]. split; [| split; [| split]].
    + rewrite (comm (++)) in Hnd |- *. simpl. apply NoDup_cons. split; [| done].
      by rewrite (comm (++)).
    + intros i. rewrite elem_of_app, elem_of_cons.
      intros [Hi | [-> | Hi]].
      * apply Hheld. rewrite elem_of_app. by left.
      * apply elem_of_pendingIds. eauto.
      * apply Hheld. rewrite elem_of_app. by right.
    + done.
    + intros Hrn i Hi. rewrite elem_of_app, elem_of_cons.
      apply (returned_none_middle _ Waiting) in Hrn; [| done].
      specialize (Hnone Hrn i Hi). rewrite elem_of_app in Hnone. tauto.
  - (* the select finds no row *)
    split; [done |]. split; [done |]. split; [done |]. split; [done |].
    intros _ i Hi. apply elem_of_pendingIds in Hi as (r & Hr & Hst & <-).
    specialize (Hno r Hr).
    destruct (decide (id r ∈ lockedIds cs1 ++ lockedIds cs2)) as [| Hfree];
      [done |].
    assert (candidate (lockedIds cs1 ++ lockedIds cs2) r = true) as Hc
      by (by apply candidate_spec).
    congruence.
  - (* the update and the commit *)
    assert (id r ∈ pendingIds tbl) as Hr.
    { apply Hheld. rewrite elem_of_app, elem_of_cons. auto. }
    assert (NoDup (map id tbl)) as Hndt by (by rewrite Hids).
    assert (id r ∉ lockedIds cs1 ++ lockedIds cs2) as Hfresh.
    { rewrite (comm (++)) in Hnd. simpl in Hnd.
      apply NoDup_cons in Hnd as [Hni _]. by rewrite (comm (++)). }
    split; [by rewrite markProcessing_ids |].
    split; [| split; [| split]].
    + rewrite (comm (++)) in Hnd. simpl in Hnd.
      apply NoDup_cons in Hnd as [_ Hnd]. by rewrite (comm (++)).
    + intros i Hi. apply markProcessing_pending_elem; [done | done |].
      split; [| by intros ->].
      apply Hheld. rewrite elem_of_app, elem_of_cons.
      rewrite elem_of_app in Hi. tauto.
    + rewrite <- Hsplit. rewrite (markProcessing_pending (id r) tbl) by done.
      rewrite <- Permutation_middle. simpl.
      by rewrite <- Permutation_middle.
    + intros Hrn i Hi.
      apply markProcessing_pending_elem in Hi as [Hi Hne]; [| done | done].
      apply (returned_none_middle _ (Holding r)) in Hrn; [| done].
      specialize (Hnone Hrn i Hi).
      rewrite elem_of_app, elem_of_cons in Hnone.
      rewrite elem_of_app. tauto.
Qed.

Lemma claimInvariant_steps c c' :
  claimInvariant tbl0 c → steps c c' → claimInvariant tbl0 c'.
Proof.
  intros Hinv Hsteps. induction Hsteps as [| c1 c2 c3 Hstep _ IH]; [done |].
  apply IH. by eapply claimInvariant_step.
Qed.

Lemma step_claimers_length c c' :
  step c c' → length (claimers c') = length (claimers c).
Proof. destruct 1; simpl; by rewrite !length_app. Qed.

Lemma steps_claimers_length c c' :
  steps c c' → length (claimers c') = length (claimers c).
Proof.
  induction 1 as [| c1 c2 c3 Hstep _ IH]; [done |].
  rewrite IH. by apply step_claimers_length.
Qed.

Lemma finished_no_lock cs : forallb isReturned cs = true → lockedIds cs = [].
Proof.
  induction cs as [| c cs IH]; simpl; [done |].
  rewrite andb_true_iff. intros [Hc Hcs]. destruct c; try done.
  simpl. by apply IH.
Qed.

Lemma claimedIds_length cs : (length (claimedIds cs) ≤ length cs)%nat.
Proof.
  induction cs as [| c cs IH]; simpl; [done |].
  destruct (claimedId c); simpl; lia.
Qed.

Lemma finished_all_claimed cs :
  forallb isReturned cs = true → Returned None ∉ cs →
  length (claimedIds cs) = length cs.
Proof.
  induction cs as [| c cs IH]; simpl; [done |].
  rewrite andb_true_iff, not_elem_of_cons. intros [Hc Hcs] [Hne Hnin].
  destruct c as [| | [res |]]; try done. simpl. f_equal. by apply IH.
Qed.
End HopperConcurrency.

Section HopperTheorem.
Import Hopper.

(** C1: N concurrent invocations of the claim step against a hopper with
    M entries in the PENDING state: once all of them have returned, the
    entries handed out are pairwise distinct, there are exactly min(N, M)
    of them, and together with the entries still PENDING they are exactly
    the entries that were PENDING at the start (none lost, none handed out
    twice); the row a claimer takes is the first unlocked PENDING row by
    enqueue timestamp ascending, then priority ascending with nulls last. *)
Theorem concurrent_claims_are_exclusive tbl n final :
  NoDup (map id tbl) →
  steps (initial tbl n) final →
  finished final = true →
  NoDup (claimedIds (claimers final))
  ∧ length (claimedIds (claimers final))
    = Nat.min n (length (pendingIds tbl))
  ∧ pendingIds (table final) ++ claimedIds (claimers final)
    ≡ₚ pendingIds tbl
  ∧ (∀ locked t r, selectNext locked t = Some r → isNext locked t r).
Proof.
  intros Hnd Hsteps Hfin.
  destruct (claimInvariant_steps tbl Hnd _ _
              (claimInvariant_initial tbl n) Hsteps)
    as (Hids & _ & _ & Hsplit & Hnone).
  pose proof (steps_claimers_length _ _ Hsteps) as Hlen.
  simpl in Hlen. rewrite length_replicate in Hlen.
  unfold finished in Hfin.
  pose proof (finished_no_lock _ Hfin) as Hlock.
  pose proof (pendingIds_nodup tbl Hnd) as Hndp.
  rewrite <- Hsplit in Hndp.
  split; [by apply NoDup_app in Hndp as (_ & _ & ?) |].
  split; [| split; [done | apply selectNext_isNext]].
  pose proof (Permutation_length Hsplit) as Hcount.
  rewrite length_app in Hcount.
  pose proof (claimedIds_length (claimers final)) as Hle.
  destruct (decide (Returned None ∈ claimers final)) as [Hrn | Hrn].
  - assert (pendingIds (table final) = []) as Hempty.
    { destruct (pendingIds (table final)) as [| i rest] eqn:Hp; [done |].
      exfalso. specialize (Hnone Hrn i). rewrite Hlock in Hnone.
      eapply not_elem_of_nil, Hnone. by left. }
    rewrite Hempty in Hcount. simpl in Hcount. lia.
  - rewrite (finished_all_claimed _ Hfin Hrn) in *. lia.
Qed.

(** The claimers can always run to completion, whatever the table. *)
Lemma claimers_finish_from done k tbl :
  forallb isReturned done = true →
  ∃ final,
    steps (mkConfig tbl (done ++ replicate k Waiting)) final
    ∧ finished final = true.
Proof.
  revert done tbl. induction k as [| k IH]; intros done tbl Hdone.
  - eexists. split; [apply steps_refl |].
    unfold finished. simpl. by rewrite app_nil_r.
  - assert (lockedIds (done ++ Waiting :: replicate k Waiting) = []) as Hl.
    { rewrite lockedIds_middle, (finished_no_lock _ Hdone). simpl.
      clear. induction k; simpl; auto. }
    simpl.
    destruct (selectNext [] tbl) as [r |] eqn:Hsel.
    + destruct (IH (done ++ [Returned (Some (mkResult (id r) (lead_id r)))])
                  (markProcessing (id r) tbl)) as (final & Hrun & Hfin).
      { rewrite forallb_app, Hdone. done. }
      rewrite <- app_assoc in Hrun. simpl in Hrun.
      exists final. split; [| done].
      eapply steps_step.
      { apply (step_lock tbl done (replicate k Waiting) r).
        rewrite Hl. by apply selectNext_isNext. }
      eapply steps_step; [apply step_commit | exact Hrun].
    + destruct (IH (done ++ [Returned None]) tbl) as (final & Hrun & Hfin).
      { rewrite forallb_app, Hdone. done. }
      rewrite <- app_assoc in Hrun. simpl in Hrun.
      exists final. split; [| done].
      eapply steps_step; [| exact Hrun].
      apply step_none. rewrite Hl. intros r Hr.
      by eapply selectNext_none.
Qed.

Lemma claimers_finish tbl n :
  ∃ final, steps (initial tbl n) final ∧ finished final = true.
Proof. apply (claimers_finish_from [] n tbl). done. Qed.

Lemma smallHopper_run : steps (initial smallHopper 3) smallHopperClaimed.
Proof.
  refine (steps_step _ _ _
            (step_lock smallHopper [] [Waiting; Waiting] hopperRow2 _) _).
  { apply selectNext_isNext. vm_compute. reflexivity. }
  refine (steps_step _ _ _
            (step_lock smallHopper [Holding hopperRow2] [Waiting]
               hopperRow1 _) _).
  { apply selectNext_isNext. vm_compute. reflexivity. }
  refine (steps_step _ _ _
            (step_none smallHopper
               [Holding hopperRow2; Holding hopperRow1] [] _) _).
  { intros r Hr. eapply selectNext_none; [| exact Hr].
    vm_compute. reflexivity. }
  refine (steps_step _ _ _
            (step_commit smallHopper [] [Holding hopperRow1; Returned None]
               hopperRow2) _).
  refine (steps_step _ _ _
            (step_commit (markProcessing 2 smallHopper)
               [Returned (Some (mkResult 2 "lead-2"))] [Returned None]
               hopperRow1) _).
  apply steps_refl.
Defined.

Lemma concurrent_claims_are_exclusive_witness :
  NoDup (claimedIds (claimers smallHopperClaimed))
  ∧ length (claimedIds (claimers smallHopperClaimed)) = 2%nat.
Proof.
  destruct (concurrent_claims_are_exclusive smallHopper 3
              smallHopperClaimed) as (Hnd & Hlen & _).
  - apply (bool_decide_unpack _). vm_compute. exact I.
  - exact smallHopper_run.
  - reflexivity.
  - split; [exact Hnd | exact Hlen].
Defined.
End HopperTheorem.


(** * Further properties *)

(** ** Tracking ids *)

Section TrackingIds.
Import TrackingId.













End TrackingIds.

(** ** The Contact State Store: index, completeness, duplicates *)

Section StoreIndex.

Lemma addOrUpdate_keyed sync st :
  keyedByPhone sync → keyedByPhone (addOrUpdateContact sync st).
Proof.
  intros Hk phone d. unfold addOrUpdateContact. cbn [documents].
  destruct (decide (phoneNumber st = phone)) as [<- | Hne].
  - rewrite lookup_insert_eq. by intros [= <-].
  - rewrite lookup_insert_ne by done. apply Hk.
Qed.

(** X2: the handler of the store keeps the documents keyed by their own
    phone number: whatever the action, if every document was stored under
    its [phoneNumber] before, it is so afterwards. *)
Theorem store_keeps_documents_keyed sync event :
  keyedByPhone sync →
  keyedByPhone (StoreHandler.handler sync event).2.
Proof.
  intros Hk. destruct event as [phone | st | t]; simpl.
  - by destruct (getContactState sync phone).
  - by apply addOrUpdate_keyed.
  - done.
Qed.

Lemma store_keeps_documents_keyed_witness :
  keyedByPhone
    (StoreHandler.handler storeWithContact
       (StoreHandler.AddOrUpdateAction
          (CadenceEngine.revertState storedContact))).2.
Proof.
  apply store_keeps_documents_keyed.
  intros phone d Hd. unfold storeWithContact in Hd. cbn [documents] in Hd.
  apply lookup_insert_Some in Hd as [[<- <-] | [_ Hd]]; [done |].
  by rewrite lookup_empty in Hd.
Defined.

(** X3: how [addOrUpdateContact] maintains the active list, when the list
    exists: a state that is ACTIVE or PENDING is listed afterwards; a state
    that is PAUSED, COMPLETED or ERROR is not listed afterwards, however
    often it was listed before; a state without a status leaves the list as
    it is; and the entries of the other contacts are never touched. *)
Theorem addOrUpdate_maintains_index sync st items :
  activeList sync = Some items →
  ∃ items',
    activeList (addOrUpdateContact sync st) = Some items'
    ∧ (isActiveOrPending (status st) = true →
       Some (phoneNumber st) ∈ items')
    ∧ (isInactive (status st) = true → Some (phoneNumber st) ∉ items')
    ∧ (status st = None → items' = items)
    ∧ (∀ item, item ≠ Some (phoneNumber st) → item ∈ items' ↔ item ∈ items).
Proof.
  intros Hl. unfold addOrUpdateContact. cbn [activeList]. rewrite Hl.
  destruct (isActiveOrPending (status st)) eqn:Ha.
  - eexists. split; [reflexivity |].
    split; [intros _; apply elem_of_app; right; by left |].
    split; [by destruct (status st) as [[] |] |].
    split; [by intros Hs; rewrite Hs in Ha |].
    intros item Hne. rewrite elem_of_app, list_elem_of_singleton. tauto.
  - destruct (isInactive (status st)) eqn:Hi.
    + eexists. split; [reflexivity |].
      split; [done |].
      split.
      { intros _ Hin. apply list_elem_of_In, filter_In in Hin as [_ Hne].
        by rewrite bool_decide_eq_true_2 in Hne. }
      split; [by intros Hs; rewrite Hs in Hi |].
      intros item Hne. rewrite !list_elem_of_In, filter_In.
      rewrite negb_true_iff, bool_decide_eq_false. tauto.
    + eexists. split; [reflexivity |]. repeat split; try done.
Qed.

Lemma addOrUpdate_maintains_index_witness :
  ∃ items',
    activeList
      (addOrUpdateContact duplicateStore
         (CadenceEngine.revertState (dueContact "+15550101" 200 (Some 50))))
    = Some items'
    ∧ Some "+15550101" ∉ items'.
Proof.
  destruct (addOrUpdate_maintains_index duplicateStore
              (CadenceEngine.revertState
                 (dueContact "+15550101" 200 (Some 50)))
              [Some "+15550101"; Some "+15550101"] eq_refl)
    as (items' & Hl & _ & Hout & _).
  exists items'. split; [exact Hl | by apply Hout].
Defined.
End StoreIndex.

Section StoreCompleteness.

(** The unsorted loop keeps, of what the sorted version's loop keeps, the
    contacts that are due. *)
Lemma collectDue_filter sync asOf items seen :
  StoreUnsorted.collectDue sync asOf items seen
  = List.filter (isDue asOf) (Store.collectActive sync items seen).
Proof.
  revert seen. induction items as [| item rest IH]; intros seen; simpl;
    [done |].
  destruct (bool_decide (str_or item EmptyString = EmptyString)); simpl;
    [apply IH |].
  destruct (bool_decide (str_or item EmptyString ∈ seen)); simpl;
    [apply IH |].
  destruct (getContactState sync _) as [d | |]; try apply IH.
  destruct (isActiveOrPending (status d)); simpl; [| apply IH].
  destruct (isDue asOf d); simpl; by rewrite IH.
Qed.

Lemma insertBy_perm {A} (cmp : A → A → Z) x l : insertBy cmp x l ≡ₚ x :: l.
Proof.
  induction l as [| y l IH]; simpl; [done |].
  destruct (cmp x y <=? 0); [done |].
  rewrite IH. apply Permutation_swap.
Qed.

Lemma sortBy_perm {A} (cmp : A → A → Z) l : sortBy cmp l ≡ₚ l.
Proof.
  induction l as [| y l IH]; simpl; [done |].
  by rewrite insertBy_perm, IH.
Qed.

Lemma filter_perm {A} (f : A → bool) l1 l2 :
  l1 ≡ₚ l2 → List.filter f l1 ≡ₚ List.filter f l2.
Proof.
  induction 1 as [| x l1 l2 _ IH | x y l | l1 l2 l3 _ IH1 _ IH2]; simpl.
  - done.
  - destruct (f x); by rewrite IH.
  - destruct (f x), (f y); try done. apply Permutation_swap.
  - by rewrite IH1.
Qed.

(** A listed, reachable, stored contact that is ACTIVE or PENDING is kept
    by the loop, unless its phone number was seen before the loop began. *)
Lemma collectActive_complete sync items seen phone d :
  Some phone ∈ items →
  phone ≠ EmptyString →
  phone ∉ seen →
  phone ∉ unreachable sync →
  documents sync !! phone = Some d →
  isActiveOrPending (status d) = true →
  In d (Store.collectActive sync items seen).
Proof.
  intros Hin Hne Hseen Hreach Hd Hs. revert seen Hseen.
  induction items as [| item rest IH]; intros seen Hseen;
    [by apply elem_of_nil in Hin |].
  apply elem_of_cons in Hin as [<- | Hin]; cbn [Store.collectActive].
  - rewrite (str_or_nonempty _ _ Hne).
    rewrite bool_decide_eq_false_2 by done.
    rewrite bool_decide_eq_false_2 by done.
    unfold getContactState. rewrite bool_decide_eq_false_2 by done.
    rewrite Hd, Hs. by left.
  - specialize (IH Hin).
    case_bool_decide as He; [by apply IH |].
    case_bool_decide as Hp; [by apply IH |].
    destruct (decide (str_or item EmptyString = phone)) as [Heq | Hneq].
    + rewrite Heq. unfold getContactState.
      rewrite bool_decide_eq_false_2 by done.
      rewrite Hd, Hs. by left.
    + assert (In d (Store.collectActive sync rest
                      ({[str_or item EmptyString]} ∪ seen))) as Hrec.
      { apply IH. intros [Hx%elem_of_singleton_1 | Hx]%elem_of_union;
          [by apply Hneq | by apply Hseen]. }
      destruct (getContactState sync _) as [d' | |]; try done.
      destruct (isActiveOrPending (status d')); [by right | done].
Qed.

(** What the loop keeps is the document of a listed phone number that was
    not seen before. *)
Lemma collectActive_listed sync items seen r :
  In r (Store.collectActive sync items seen) →
  ∃ phone, Some phone ∈ items ∧ (phone ∉ seen)
           ∧ documents sync !! phone = Some r.
Proof.
  revert seen. induction items as [| item rest IH]; intros seen; simpl;
    [done |].
  assert (∀ seen', seen ⊆ seen' →
            In r (Store.collectActive sync rest seen') →
            ∃ phone, Some phone ∈ item :: rest ∧ (phone ∉ seen)
                     ∧ documents sync !! phone = Some r) as Hrec.
  { intros seen' Hsub Hin. destruct (IH _ Hin) as (p & Hp & Hs & Hd).
    exists p. split; [by right |]. split; [| done].
    intros Hx. by apply Hs, Hsub. }
  case_bool_decide as He; [by apply Hrec |].
  case_bool_decide as Hp; [by apply Hrec |].
  assert (seen ⊆ {[str_or item EmptyString]} ∪ seen) as Hsub
    by apply union_subseteq_r.
  unfold getContactState. case_bool_decide; [by apply Hrec |].
  destruct (documents sync !! _) as [d |] eqn:Hd; [| by apply Hrec].
  destruct (isActiveOrPending (status d)); [| by apply Hrec].
  intros [<- | Hin]; [| by apply (Hrec _ Hsub)].
  destruct item as [phone |]; [| done].
  rewrite str_or_nonempty in Hp, Hd
    by (intros ->; apply He; unfold str_or; by rewrite bool_decide_eq_true_2).
  exists phone. split; [by left | done].
Qed.

(** Under a keyed store, the loop never keeps two documents of one phone
    number. *)
Lemma collectActive_nodup sync items seen :
  keyedByPhone sync →
  NoDup (map phoneNumber (Store.collectActive sync items seen))
  ∧ ∀ r, In r (Store.collectActive sync items seen) → phoneNumber r ∉ seen.
Proof.
  intros Hk. split.
  - revert seen. induction items as [| item rest IH]; intros seen; simpl;
      [constructor |].
    case_bool_decide; [apply IH |].
    case_bool_decide; [apply IH |].
    unfold getContactState. case_bool_decide; [apply IH |].
    destruct (documents sync !! _) as [d |] eqn:Hd; [| apply IH].
    destruct (isActiveOrPending (status d)); [| apply IH].
    simpl. constructor; [| apply IH].
    intros Hin. rewrite list_elem_of_In, in_map_iff in Hin.
    destruct Hin as (r & Hr & Hin).
    apply collectActive_listed in Hin as (p & _ & Hp & Hdp).
    apply Hk in Hd. apply Hk in Hdp. apply Hp.
    rewrite <- Hdp, Hr, Hd. apply elem_of_union_l, elem_of_singleton_2.
    reflexivity.
  - intros r Hin. apply collectActive_listed in Hin as (p & _ & Hp & Hdp).
    apply Hk in Hdp. by rewrite Hdp.
Qed.

Lemma nodup_map_filter {A B} (g : A → B) (f : A → bool) l :
  NoDup (map g l) → NoDup (map g (List.filter f l)).
Proof.
  induction l as [| x l IH]; simpl; [done |].
  intros [Hx Hl]%NoDup_cons. destruct (f x); simpl; [| by apply IH].
  constructor; [| by apply IH].
  intros Hin. apply Hx.
  rewrite list_elem_of_In, in_map_iff in Hin. destruct Hin as (y & Hy & Hin).
  apply filter_In in Hin as [Hin _].
  rewrite list_elem_of_In, in_map_iff. eauto.
Qed.

(** X4: both versions of [queryContactsDueForCall] are complete: a contact
    whose phone number is on the active list, whose document can be fetched
    and is ACTIVE or PENDING with a [nextCallTimestamp] not after the query
    time, is returned. *)
Theorem queryDue_complete sync asOf items phone d :
  activeList sync = Some items →
  Some phone ∈ items →
  phone ≠ EmptyString →
  phone ∉ unreachable sync →
  documents sync !! phone = Some d →
  isActiveOrPending (status d) = true →
  isDue asOf d = true →
  In d (Store.queryContactsDueForCall sync asOf)
  ∧ In d (StoreUnsorted.queryContactsDueForCall sync asOf).
Proof.
  intros Hl Hin Hne Hreach Hd Hs Hdue.
  assert (In d (Store.collectActive sync items ∅)) as Hc.
  { eapply collectActive_complete; eauto. apply not_elem_of_empty. }
  unfold Store.queryContactsDueForCall, StoreUnsorted.queryContactsDueForCall.
  rewrite Hl, collectDue_filter. split.
  - apply filter_In. split; [by apply in_sortBy | done].
  - apply filter_In. done.
Qed.

Lemma queryDue_complete_witness :
  In (dueContact "+15550101" 200 (Some 50))
     (Store.queryContactsDueForCall duplicateStore 1000)
  ∧ In (dueContact "+15550101" 200 (Some 50))
       (StoreUnsorted.queryContactsDueForCall duplicateStore 1000).
Proof.
  apply (queryDue_complete duplicateStore 1000
           [Some "+15550101"; Some "+15550101"] "+15550101").
  - reflexivity.
  - by left.
  - discriminate.
  - apply not_elem_of_empty.
  - reflexivity.
  - reflexivity.
  - reflexivity.
Defined.

(** X5: the two versions of [queryContactsDueForCall] return the same
    contacts: the result of the one that sorts is a permutation of the
    result of the one that keeps the list order. *)
Theorem queryDue_versions_agree sync asOf :
  Store.queryContactsDueForCall sync asOf
  ≡ₚ StoreUnsorted.queryContactsDueForCall sync asOf.
Proof.
  unfold Store.queryContactsDueForCall, StoreUnsorted.queryContactsDueForCall.
  destruct (activeList sync) as [items |]; [| done].
  rewrite collectDue_filter. apply filter_perm, sortBy_perm.
Qed.

(** X6: the query returns no contact twice, however often the active list
    names it: under a keyed store the phone numbers of the result are
    pairwise distinct, in both versions. *)
Theorem queryDue_no_duplicates sync asOf :
  keyedByPhone sync →
  NoDup (map phoneNumber (Store.queryContactsDueForCall sync asOf))
  ∧ NoDup (map phoneNumber (StoreUnsorted.queryContactsDueForCall sync asOf)).
Proof.
  intros Hk.
  unfold Store.queryContactsDueForCall, StoreUnsorted.queryContactsDueForCall.
  destruct (activeList sync) as [items |]; [| split; constructor].
  rewrite collectDue_filter.
  pose proof (collectActive_nodup sync items ∅ Hk) as [Hnd _].
  split; apply nodup_map_filter; [| done].
  by rewrite (Permutation_map phoneNumber (sortBy_perm compareContacts _)).
Qed.

Lemma queryDue_no_duplicates_witness :
  NoDup (map phoneNumber (Store.queryContactsDueForCall duplicateStore 1000))
  ∧ length (Store.queryContactsDueForCall duplicateStore 1000) = 1%nat.
Proof.
  split; [| reflexivity].
  apply (queryDue_no_duplicates duplicateStore 1000).
  intros phone d Hd. unfold duplicateStore in Hd. cbn [documents] in Hd.
  apply lookup_insert_Some in Hd as [[<- <-] | [_ Hd]]; [done |].
  by rewrite lookup_empty in Hd.
Defined.

(** After a write of a state that is PAUSED, COMPLETED or ERROR, the query
    returns no contact with that phone number. *)
Lemma inactive_not_due sync st asOf r :
  keyedByPhone sync →
  isInactive (status st) = true →
  In r (Store.queryContactsDueForCall (addOrUpdateContact sync st) asOf) →
  phoneNumber r ≠ phoneNumber st.
Proof.
  intros Hk Hs Hin Heq.
  assert (isActiveOrPending (status st) = false) as Ha
    by (by destruct (status st) as [[] |]).
  revert Hin. unfold Store.queryContactsDueForCall.
  destruct (activeList (addOrUpdateContact sync st)) as [items' |] eqn:Hl';
    [| done].
  intros [Hin _]%filter_In.
  apply in_sortBy, collectActive_listed in Hin as (p & Hp & _ & Hd).
  apply (addOrUpdate_keyed _ _ Hk) in Hd.
  revert Hl'. unfold addOrUpdateContact. cbn [activeList].
  rewrite Ha, Hs.
  destruct (activeList sync) as [items |]; [| done].
  cbn [fmap option_fmap option_map]. intros [= <-].
  apply list_elem_of_In, filter_In in Hp as [_ Hp].
  rewrite <- Hd, Heq in Hp.
  by rewrite bool_decide_eq_true_2 in Hp.
Qed.

(** X7: a write followed by a query.  After [addOrUpdateContact] of a state
    that is ACTIVE or PENDING and due, the query returns that state; after
    [addOrUpdateContact] of a state that is PAUSED, COMPLETED or ERROR, the
    query returns no contact with that phone number. *)
Theorem upsert_then_queryDue sync st asOf items :
  activeList sync = Some items →
  keyedByPhone sync →
  phoneNumber st ≠ EmptyString →
  phoneNumber st ∉ unreachable sync →
  (isActiveOrPending (status st) = true → isDue asOf st = true →
   In st (Store.queryContactsDueForCall (addOrUpdateContact sync st) asOf))
  ∧ (isInactive (status st) = true →
     ∀ r, In r (Store.queryContactsDueForCall
                  (addOrUpdateContact sync st) asOf) →
          phoneNumber r ≠ phoneNumber st).
Proof.
  intros Hl Hk Hne Hreach.
  split.
  - intros Hs Hdue.
    unfold Store.queryContactsDueForCall, addOrUpdateContact.
    cbn [activeList]. rewrite Hl, Hs. cbn [fmap option_fmap option_map].
    apply filter_In. split; [| done].
    apply in_sortBy.
    apply (collectActive_complete _ _ _ (phoneNumber st)).
    + apply elem_of_app. right. by left.
    + done.
    + apply not_elem_of_empty.
    + done.
    + cbn [documents]. apply lookup_insert_eq.
    + done.
  - intros Hs r Hin. by eapply inactive_not_due.
Qed.

Lemma upsert_then_queryDue_witness :
  In (dueContact "+15550101" 300 (Some 1))
     (Store.queryContactsDueForCall
        (addOrUpdateContact duplicateStore
           (dueContact "+15550101" 300 (Some 1))) 1000).
Proof.
  refine (proj1 (upsert_then_queryDue duplicateStore
                   (dueContact "+15550101" 300 (Some 1)) 1000
                   [Some "+15550101"; Some "+15550101"] eq_refl _ _ _)
            eq_refl eq_refl).
  - intros phone d Hd. unfold duplicateStore in Hd. cbn [documents] in Hd.
    apply lookup_insert_Some in Hd as [[<- <-] | [_ Hd]]; [done |].
    by rewrite lookup_empty in Hd.
  - discriminate.
  - apply not_elem_of_empty.
Defined.
End StoreCompleteness.

(** ** The decision step: bookkeeping, statuses, retry bound *)

Section DecisionFrame.
Import CadenceRules Webhook.


Lemma flat_decide_shape rules handoff fetched event webhookTime now r :
  FlatWebhook.decide rules handoff fetched event webhookTime now = Ok r →
  ∃ st nx,
    r = set_nextCallTimestamp nx
          (set_status (Some st)
             (recordOutcome event webhookTime
                (match fetched with
                 | Some f =>
                     set_attemptCount (Some (num_or0 (attemptCount f) + 1)) f
                 | None =>
                     set_status (Some PENDING)
                       (set_attemptCount (Some 1)
                          (bare (phone_number event)))
                 end)))
    ∧ st ≠ PENDING
    ∧ (st ≠ ACTIVE → nx = None)
    ∧ (st = ACTIVE →
       ∃ key rule, lookupOrDefault rules key = OwnRule rule
                   ∧ incremented fetched < FlatCadenceRules.maxAttempts rule).
Proof.
  unfold FlatWebhook.decide.
  set (cs0 := match fetched with Some _ => _ | None => _ end).
  assert (num_or0 (attemptCount (recordOutcome event webhookTime cs0))
          = incremented fetched) as Hn by (subst cs0; by destruct fetched).
  rewrite Hn. clearbody cs0.
  destruct (lookupOrDefault _ _) as [rule | |] eqn:Hl; [| | discriminate].
  - destruct (_ && _).
    { intros [= <-]. by exists COMPLETED_SUCCESS, None. }
    destruct (includes _ _).
    { intros [= <-]. by exists PAUSED, None. }
    destruct (Z.leb_spec (FlatCadenceRules.maxAttempts rule)
                (incremented fetched)) as [Hle | Hlt].
    { intros [= <-].
      exists (statusOfFinal (FlatCadenceRules.finalStatusOnExhaustion rule)),
        None.
      split; [done |].
      split; [by destruct (FlatCadenceRules.finalStatusOnExhaustion rule) |].
      split; [done |].
      intros Hs. by apply statusOfFinal_not_active in Hs. }
    destruct (_ <? _).
    + destruct (FlatWebhook.attemptAt _ _) as [a |]; [| discriminate].
      intros [= <-]. eexists ACTIVE, _. split; [reflexivity |].
      split; [done |]. split; [done |]. eauto.
    + intros [= <-].
      exists (statusOfFinal (FlatCadenceRules.finalStatusOnExhaustion rule)),
        None.
      split; [done |].
      split; [by destruct (FlatCadenceRules.finalStatusOnExhaustion rule) |].
      split; [done |].
      intros Hs. by apply statusOfFinal_not_active in Hs.
  - destruct (includes _ _); [| discriminate].
    intros [= <-]. by exists PAUSED, None.
Qed.











(** X11: a disposition that names a member of Object.prototype.  When the
    disposition of a validated payload is such a name (constructor,
    toString, ...), is no entry of the table and is no hand-off
    disposition, [rules[key] || rules.DEFAULT] yields the inherited member
    instead of the DEFAULT rule, and the decision throws: in the cadence
    branch, in the initial-call branch, and in the step written against the
    flat table for a contact with stored state. *)
Theorem prototype_member_disposition_throws
    (rules : CadenceRulesConfig)
    (flatRules : FlatCadenceRules.CadenceRulesConfig)
    handoff fetched f event webhookTime now hopperId leadIdDb leadData :
  payloadValid event = true →
  includes objectPrototypeMembers (disposition event) = true →
  includes handoff (disposition event) = false →
  rules !! disposition event = None →
  flatRules !! disposition event = None →
  decideCadence rules handoff fetched event webhookTime now = Throw
  ∧ decideInitial rules handoff hopperId leadIdDb leadData event now = Throw
  ∧ FlatWebhook.decide flatRules handoff (Some f) event webhookTime now
    = Throw.
Proof.
  intros Hv Hp Hh Hr Hfr.
  pose proof (payloadValid_disposition _ Hv) as Hd.
  assert (disposition event ≠ "APPOINTMENT_SCHEDULED_AI") as Hne.
  { intros He. rewrite He in Hp. vm_compute in Hp. discriminate. }
  assert (∀ R (t : gmap string R),
            t !! disposition event = None →
            lookupOrDefault t (disposition event) = Inherited) as Hl.
  { intros R t Ht. unfold lookupOrDefault. by rewrite Ht, Hp. }
  assert (∀ cs, applyRules handoff (disposition event) Inherited now cs
                = Throw) as Ha.
  { intros cs. unfold applyRules.
    rewrite bool_decide_eq_false_2 by done.
    cbn [isFinalSuccess]. by rewrite Hh. }
  split; [| split].
  - unfold decideCadence.
    set (cs0 := match fetched with Some _ => _ | None => _ end).
    rewrite cadence_key, (Hl _ _ Hr) by done.
    destruct (priorityOrDefault _ _); [apply Ha | done].
  - unfold decideInitial. cbn [lastCallDisposition].
    rewrite str_or_nonempty, (Hl _ _ Hr) by done.
    cbn [ruleDefaultPriority]. apply Ha.
  - unfold FlatWebhook.decide, FlatWebhook.effectiveRuleKey.
    change (lastCallDisposition (recordOutcome event webhookTime _))
      with (Some (disposition event)).
    rewrite str_or_nonempty by done.
    rewrite (bool_decide_eq_true_2 (is_Some (Some f))) by eauto.
    rewrite andb_false_r, (Hl _ _ Hfr). by rewrite Hh.
Qed.

Lemma prototype_member_disposition_throws_witness :
  decideCadence getCadenceRules (handoffDispositionsOf None) None
    (mkPayload "call-1" "CA1" "+15550100" "constructor" 0) 1000 1000
  = Throw.
Proof.
  refine (proj1 (prototype_member_disposition_throws getCadenceRules
                   FlatCadenceRules.getCadenceRules
                   (handoffDispositionsOf None) None storedContact
                   (mkPayload "call-1" "CA1" "+15550100" "constructor" 0)
                   1000 1000 1 1
                   (mkLead "+15550100" None None None None None None)
                   _ _ _ _ _)); reflexivity.
Defined.

End DecisionFrame.

(** ** The outcome webhook as a whole (flat rule table) *)

Section WebhookHandler.
Import FlatWebhookHandler.

Lemma flat_decide_fields rules handoff fetched event webhookTime now r :
  FlatWebhook.decide rules handoff fetched event webhookTime now = Ok r →
  phoneNumber r = from_option phoneNumber (phone_number event) fetched
  ∧ attemptCount r = Some (incremented fetched)
  ∧ lastCallDisposition r = Some (disposition event)
  ∧ leadId r = fetched ≫= leadId
  ∧ ∃ st, status r = Some st ∧ st ≠ PENDING.
Proof.
  intros (st & nx & -> & Hst & _)%flat_decide_shape.
  destruct fetched as [f |]; [destruct f |]; simpl; repeat split; eauto.
Qed.

Lemma handler_200 rules ctx env sync event :
  statusCode (handler rules ctx env sync event) = 200 →
  payloadValid event = true
  ∧ ∃ cs,
      FlatWebhook.decide rules
        (handoffDispositionsOf (RETELL_HANDOFF_DISPOSITIONS ctx))
        (fetchContactState (getServed env) sync (phone_number event))
        event (webhookTime env) (now env) = Ok cs
      ∧ handler rules ctx env sync event
        = mkOutcome 200
            (if writeServed env then addOrUpdateContact sync cs else sync)
            (Some cs)
            (configured (SEGMENT_WRITE_KEY ctx))
            (wantsHandoffTask ctx
               (handoffDispositionsOf (RETELL_HANDOFF_DISPOSITIONS ctx))
               event cs).
Proof.
  unfold handler.
  destruct (payloadValid event); simpl; [| discriminate].
  destruct (FlatWebhook.decide _ _ _ _ _ _) as [cs |]; simpl;
    [| discriminate].
  intros _. split; [done |]. by exists cs.
Qed.

Lemma fetchContactState_served sync phone :
  phone ∉ unreachable sync →
  fetchContactState true sync phone = documents sync !! phone.
Proof.
  intros Hr. unfold fetchContactState, StoreHandler.handler, getContactState.
  rewrite bool_decide_eq_false_2 by done.
  by destruct (documents sync !! phone).
Qed.

(** X12: the webhook is not idempotent.  When the same outcome is delivered
    twice and both deliveries are processed, the second one starts from the
    record the first one stored: the contact ends with two attempts more
    than it had, not one. *)
Theorem replayed_outcome_counts_twice rules ctx env1 env2 sync event :
  keyedByPhone sync →
  phone_number event ∉ unreachable sync →
  getServed env1 = true → writeServed env1 = true →
  getServed env2 = true →
  statusCode (handler rules ctx env1 sync event) = 200 →
  statusCode
    (handler rules ctx env2 (store (handler rules ctx env1 sync event)) event)
  = 200 →
  ∃ cs1 cs2,
    contactState (handler rules ctx env1 sync event) = Some cs1
    ∧ contactState
        (handler rules ctx env2
           (store (handler rules ctx env1 sync event)) event) = Some cs2
    ∧ attemptCount cs1
      = Some (incremented (documents sync !! phone_number event))
    ∧ attemptCount cs2
      = Some (incremented (documents sync !! phone_number event) + 1).
Proof.
  intros Hk Hr Hg1 Hw1 Hg2 H1 H2.
  apply handler_200 in H1 as (Hv & cs1 & Hd1 & Ho1).
  rewrite Ho1 in H2 |- *. cbn [store contactState] in H2 |- *.
  rewrite Hw1 in H2 |- *.
  apply handler_200 in H2 as (_ & cs2 & Hd2 & Ho2).
  rewrite Ho2. cbn [contactState].
  rewrite Hg1, fetchContactState_served in Hd1 by done.
  apply flat_decide_fields in Hd1 as (Hp1 & Ha1 & _).
  assert (phoneNumber cs1 = phone_number event) as Hp.
  { rewrite Hp1. destruct (documents sync !! _) as [d |] eqn:Hd; [| done].
    by apply Hk in Hd. }
  rewrite Hg2, fetchContactState_served in Hd2 by done.
  unfold addOrUpdateContact in Hd2. cbn [documents] in Hd2.
  rewrite Hp, lookup_insert_eq in Hd2.
  apply flat_decide_fields in Hd2 as (_ & Ha2 & _).
  exists cs1, cs2. repeat split; try done.
  rewrite Ha2. unfold incremented at 1. by rewrite Ha1.
Qed.

Lemma replayed_outcome_counts_twice_witness :
  ∃ cs1 cs2,
    contactState
      (handler FlatCadenceRules.getCadenceRules webhookContext
         servedInvocations
         (mkSync (<["+15550110" := bare "+15550110"]> ∅) (Some []) ∅)
         storedContactOutcome) = Some cs1
    ∧ contactState
        (handler FlatCadenceRules.getCadenceRules webhookContext
           servedInvocations
           (store
              (handler FlatCadenceRules.getCadenceRules webhookContext
                 servedInvocations
                 (mkSync (<["+15550110" := bare "+15550110"]> ∅) (Some []) ∅)
                 storedContactOutcome))
           storedContactOutcome) = Some cs2
    ∧ attemptCount cs1 = Some 1
    ∧ attemptCount cs2 = Some 2.
Proof.
  refine (replayed_outcome_counts_twice FlatCadenceRules.getCadenceRules
            webhookContext servedInvocations servedInvocations
            (mkSync (<["+15550110" := bare "+15550110"]> ∅) (Some []) ∅)
            storedContactOutcome _ _ eq_refl eq_refl eq_refl _ _).
  - intros phone d Hd. cbn [documents] in Hd.
    apply lookup_insert_Some in Hd as [[<- <-] | [_ Hd]]; [done |].
    by rewrite lookup_empty in Hd.
  - apply not_elem_of_empty.
  - vm_compute. reflexivity.
  - vm_compute. reflexivity.
Defined.

(** X13: a call in flight resets the count.  When the engine has placed a
    call for a contact (its counter of initiated calls went up), the
    document it left holds the phone number and the call token only; the
    webhook that then processes the outcome of that call therefore decides
    from attempt 1 and without a leadId, whatever the contact's record
    held before the call. *)
Theorem call_in_flight_resets_count
    {R : Type} `{CadenceEngine.RuleObject R} (engineRules : gmap string R)
    engineCtx contact responses e e'
    rules ctx env event :
  CadenceEngine.processContact engineRules engineCtx contact responses e
  = Ok e' →
  CadenceEngine.initiatedCalls e' = CadenceEngine.initiatedCalls e + 1 →
  phone_number event = phoneNumber contact →
  phoneNumber contact ∉ unreachable (CadenceEngine.sync e) →
  getServed env = true →
  statusCode (handler rules ctx env (CadenceEngine.sync e') event) = 200 →
  ∃ cs,
    contactState (handler rules ctx env (CadenceEngine.sync e') event)
    = Some cs
    ∧ attemptCount cs = Some 1
    ∧ leadId cs = None.
Proof.
  intros Hp Hi Hphone Hr Hg H200.
  assert (CadenceEngine.sync e'
          = addOrUpdateContact (CadenceEngine.sync e)
              (CadenceEngine.stateUpdateForCallAttempt
                 (CadenceEngine.now responses) contact)) as Hs.
  { revert Hp Hi. unfold CadenceEngine.processContact.
    destruct (lookupOrDefault _ _) as [rl | |]; try discriminate;
      (destruct (CadenceEngine.exhaustedWith _ _);
       [intros [= <-]; cbn [CadenceEngine.initiatedCalls]; lia |]);
      (destruct (negb _);
       [intros [= <-]; cbn [CadenceEngine.initiatedCalls]; lia |]);
      (destruct (CadenceEngine.startCallOutcome responses);
       intros [= <-]; cbn [CadenceEngine.initiatedCalls CadenceEngine.sync];
       [done | lia | lia]). }
  apply handler_200 in H200 as (_ & cs & Hd & Ho).
  rewrite Ho. cbn [contactState]. exists cs. split; [done |].
  rewrite Hg, fetchContactState_served in Hd
    by (rewrite Hs, Hphone; exact Hr).
  rewrite Hs, Hphone in Hd.
  unfold addOrUpdateContact in Hd. cbn [documents] in Hd.
  change (phoneNumber (CadenceEngine.stateUpdateForCallAttempt _ contact))
    with (phoneNumber contact) in Hd.
  rewrite lookup_insert_eq in Hd.
  apply flat_decide_fields in Hd as (_ & Ha & _ & Hl & _).
  split; [exact Ha | exact Hl].
Qed.

Lemma call_in_flight_resets_count_witness :
  ∃ cs,
    contactState
      (handler FlatCadenceRules.getCadenceRules webhookContext
         servedInvocations
         (addOrUpdateContact storeWithContact
            (CadenceEngine.stateUpdateForCallAttempt 2000000 storedContact))
         storedContactOutcome) = Some cs
    ∧ attemptCount cs = Some 1
    ∧ leadId cs = None.
Proof.
  refine (@call_in_flight_resets_count
            FlatCadenceRules.CadenceDispositionRule
            CadenceEngine.flatRuleObject
            (<["DEFAULT" := FlatCadenceRules.mkRule 9 [] FinalExhausted]> ∅)
            engineContext storedContact servedResponses
            (engineStart storeWithContact)
            (CadenceEngine.mkEngine
               (addOrUpdateContact storeWithContact
                  (CadenceEngine.stateUpdateForCallAttempt 2000000
                     storedContact))
               [CadenceEngine.callParameters engineContext 2000000
                  storedContact] 1 1 0)
            FlatCadenceRules.getCadenceRules webhookContext
            servedInvocations storedContactOutcome _ _ _ _ _ _).
  - vm_compute. reflexivity.
  - reflexivity.
  - reflexivity.
  - apply not_elem_of_empty.
  - reflexivity.
  - vm_compute. reflexivity.
Defined.

(** X14: when a hand-off task is requested.  For an outcome that is
    processed (status 200), the webhook requests a TaskRouter task exactly
    when the workspace and the workflow are configured and the disposition
    of the payload is a hand-off disposition: the status decided for the
    contact plays no part, so a hand-off disposition whose rule ends in
    COMPLETED_SUCCESS requests a task too. *)
Theorem handoff_task_follows_disposition rules ctx env sync event :
  statusCode (handler rules ctx env sync event) = 200 →
  handoffTask (handler rules ctx env sync event)
  = configured (TWILIO_WORKSPACE_SID ctx)
    && configured (TWILIO_WORKFLOW_SID ctx)
    && includes (handoffDispositionsOf (RETELL_HANDOFF_DISPOSITIONS ctx))
         (disposition event).
Proof.
  intros (Hv & cs & Hd & Ho)%handler_200.
  rewrite Ho. cbn [handoffTask]. unfold wantsHandoffTask. f_equal.
  apply flat_decide_fields in Hd as (_ & _ & Hl & _).
  rewrite Hl, str_or_nonempty by by apply payloadValid_disposition.
  destruct (includes _ _); [done |]. by rewrite andb_false_r.
Qed.

Lemma handoff_task_follows_disposition_witness :
  handoffTask
    (handler FlatCadenceRules.getCadenceRules webhookContext
       servedInvocations storeWithContact storedContactOutcome)
  = false.
Proof.
  exact (handoff_task_follows_disposition FlatCadenceRules.getCadenceRules
           webhookContext servedInvocations storeWithContact
           storedContactOutcome eq_refl).
Defined.

(** X15: the webhook keeps the active list in step with the status it
    decides.  After an outcome that is processed and whose write is served,
    the record decided is the stored document of its phone number, and its
    phone number is on the active list exactly when the status decided is
    ACTIVE. *)
Theorem webhook_keeps_index_in_step rules ctx env sync event items :
  activeList sync = Some items →
  writeServed env = true →
  statusCode (handler rules ctx env sync event) = 200 →
  ∃ cs items',
    contactState (handler rules ctx env sync event) = Some cs
    ∧ documents (store (handler rules ctx env sync event)) !! phoneNumber cs
      = Some cs
    ∧ activeList (store (handler rules ctx env sync event)) = Some items'
    ∧ (Some (phoneNumber cs) ∈ items' ↔ status cs = Some ACTIVE).
Proof.
  intros Hl Hw (Hv & cs & Hd & Ho)%handler_200.
  rewrite Ho, Hw. cbn [store contactState].
  apply flat_decide_fields in Hd as (_ & _ & _ & _ & st & Hst & Hne).
  unfold addOrUpdateContact. cbn [documents activeList]. rewrite Hl, Hst.
  destruct st; try done; cbn [isActiveOrPending isInactive fmap option_fmap
                              option_map];
    eexists cs, _; (split; [reflexivity |]);
    (split; [apply lookup_insert_eq |]); (split; [reflexivity |]).
  - split; [done |]. intros _. apply elem_of_app. right. by left.
  - split; [| by rewrite Hst]. intros Hin.
    apply list_elem_of_In, filter_In in Hin as [_ Hin].
    by rewrite bool_decide_eq_true_2 in Hin.
  - split; [| by rewrite Hst]. intros Hin.
    apply list_elem_of_In, filter_In in Hin as [_ Hin].
    by rewrite bool_decide_eq_true_2 in Hin.
  - split; [| by rewrite Hst]. intros Hin.
    apply list_elem_of_In, filter_In in Hin as [_ Hin].
    by rewrite bool_decide_eq_true_2 in Hin.
  - split; [| by rewrite Hst]. intros Hin.
    apply list_elem_of_In, filter_In in Hin as [_ Hin].
    by rewrite bool_decide_eq_true_2 in Hin.
Qed.

Lemma webhook_keeps_index_in_step_witness :
  ∃ cs items',
    contactState
      (handler FlatCadenceRules.getCadenceRules webhookContext
         servedInvocations storeWithContact storedContactOutcome) = Some cs
    ∧ documents
        (store
           (handler FlatCadenceRules.getCadenceRules webhookContext
              servedInvocations storeWithContact storedContactOutcome))
      !! phoneNumber cs = Some cs
    ∧ activeList
        (store
           (handler FlatCadenceRules.getCadenceRules webhookContext
              servedInvocations storeWithContact storedContactOutcome))
      = Some items'
    ∧ (Some (phoneNumber cs) ∈ items' ↔ status cs = Some ACTIVE).
Proof.
  exact (webhook_keeps_index_in_step FlatCadenceRules.getCadenceRules
           webhookContext servedInvocations storeWithContact
           storedContactOutcome [Some "+15550110"] eq_refl eq_refl eq_refl).
Defined.
End WebhookHandler.

(** ** The cadence engine: the loop as a whole *)

Section EngineLoop.
Import CadenceEngine.
Context {R : Type} `{RuleObject R}.
Variable rules : gmap string R.
Variable ctx : MyContext.

(** What one iteration does to the calls and the counters. *)
Lemma processContact_step contact env e e' :
  processContact rules ctx contact env e = Ok e' →
  processedContacts e' = processedContacts e + 1
  ∧ ((placedCalls e' = placedCalls e
      ∧ initiatedCalls e' = initiatedCalls e
      ∧ errorsEncountered e ≤ errorsEncountered e' ≤ errorsEncountered e + 1)
     ∨ (placedCalls e'
        = placedCalls e ++ [callParameters ctx (now env) contact]
        ∧ ((initiatedCalls e' = initiatedCalls e + 1
            ∧ errorsEncountered e' = errorsEncountered e)
           ∨ (initiatedCalls e' = initiatedCalls e
              ∧ errorsEncountered e' = errorsEncountered e + 1)))).
Proof.
  unfold processContact.
  destruct (lookupOrDefault rules (ruleKeyOf contact)) as [r | |];
    [| | done].
  all: destruct (exhaustedWith contact _) as [f |];
    [intros [= <-]; simpl; split; [done |]; left;
     destruct (finalWriteOk env); repeat split; lia |].
  all: destruct (tokenWriteOk env); simpl;
    [| intros [= <-]; simpl; split; [done |]; left; repeat split; lia].
  all: destruct (startCallOutcome env); intros [= <-]; simpl;
    (split; [done |]); right; (split; [done |]); auto.
Qed.

(** X16: when a run of the engine is abandoned.  The loop over the due
    contacts ends in an exception (the handler answers 500 and the contacts
    that follow are not processed) exactly when the rule of one of the
    contacts resolves to nothing: its key is no entry of the table and the
    table has no DEFAULT. *)
Theorem loop_aborts_iff_rule_missing work e :
  processDueContacts rules ctx work e = Throw
  ↔ Exists (λ cv, lookupOrDefault rules (ruleKeyOf cv.1) = Undefined) work.
Proof.
  revert e. induction work as [| [contact env] rest IH]; intros e; simpl.
  - split; [done | by intros ?%Exists_nil].
  - rewrite Exists_cons. simpl.
    destruct (processContact rules ctx contact env e) as [e1 |] eqn:H1.
    + rewrite IH. split; [by right |].
      intros [Hu | Hr]; [| done].
      unfold processContact in H1. by rewrite Hu in H1.
    + split; [| done]. intros _. left.
      unfold processContact in H1.
      destruct (lookupOrDefault rules (ruleKeyOf contact)); [| | done].
      * destruct (exhaustedWith _ _); [done |].
        destruct (negb _); [done |].
        by destruct (startCallOutcome env).
      * destruct (exhaustedWith _ _); [done |].
        destruct (negb _); [done |].
        by destruct (startCallOutcome env).
Qed.

Lemma processDueContacts_placed work e e' :
  processDueContacts rules ctx work e = Ok e' →
  ∃ called,
    called `sublist_of` work
    ∧ placedCalls e'
      = placedCalls e
        ++ map (λ cv, callParameters ctx (now cv.2) cv.1) called.
Proof.
  revert e. induction work as [| [contact env] rest IH]; intros e; simpl.
  - intros [= <-]. exists []. by rewrite app_nil_r.
  - destruct (processContact rules ctx contact env e) as [e1 |] eqn:H1;
      [| done].
    intros (called & Hsub & Hc)%IH.
    apply processContact_step in H1 as [_ [(Hc1 & _) | [Hc1 _]]].
    + exists called. split; [by constructor |]. by rewrite Hc, Hc1.
    + exists ((contact, env) :: called). split; [by constructor |].
      by rewrite Hc, Hc1, <- app_assoc.
Qed.

(** X17: the accounting of a run.  When the loop completes, every contact
    of the work list has been counted as processed; the calls handed to
    start_call are those of a sub-list of the work list, in its order; the
    calls counted as initiated are no more than the calls placed; and the
    initiated calls and the errors together are no more than the contacts
    processed. *)
Theorem loop_accounting work e e' :
  processDueContacts rules ctx work e = Ok e' →
  ∃ called,
    called `sublist_of` work
    ∧ placedCalls e'
      = placedCalls e
        ++ map (λ cv, callParameters ctx (now cv.2) cv.1) called
    ∧ processedContacts e' = processedContacts e + Z.of_nat (length work)
    ∧ 0 ≤ initiatedCalls e' - initiatedCalls e ≤ Z.of_nat (length called)
    ∧ 0 ≤ errorsEncountered e' - errorsEncountered e
    ∧ (initiatedCalls e' - initiatedCalls e)
      + (errorsEncountered e' - errorsEncountered e)
      ≤ Z.of_nat (length work).
Proof.
  revert e. induction work as [| [contact env] rest IH]; intros e; simpl.
  - intros [= <-]. exists []. rewrite app_nil_r. simpl.
    repeat split; try lia. constructor.
  - destruct (processContact rules ctx contact env e) as [e1 |] eqn:H1;
      [| done].
    intros (called & Hsub & Hc & Hp & Hi & He & Hs)%IH.
    apply processContact_step in H1 as [Hp1 [(Hc1 & Hi1 & He1) | [Hc1 Hn]]].
    + exists called. split; [by constructor |].
      rewrite Hc, Hc1. repeat split; try lia.
    + exists ((contact, env) :: called). split; [by constructor |].
      rewrite Hc, Hc1, <- app_assoc. simpl.
      repeat split; try lia.
Qed.

(** X18: whom a run of the engine dials.  A run over the store's answer to
    queryDue hands to start_call only contacts of that answer (so ACTIVE or
    PENDING and due at the query time), each with its own phone number and
    leadId; and under a keyed store it dials no phone number twice, however
    often the active list names it. *)
Theorem run_dials_due_contacts_once s currentTimestamp envOf e' :
  keyedByPhone s →
  EngineRun.run rules ctx s currentTimestamp envOf = Ok e' →
  (∀ call, In call (placedCalls e') →
     ∃ contact,
       In contact (Store.queryContactsDueForCall s currentTimestamp)
       ∧ To call = phoneNumber contact
       ∧ lead_id call = leadId contact
       ∧ isActiveOrPending (status contact) = true
       ∧ isDue currentTimestamp contact = true)
  ∧ NoDup (map To (placedCalls e')).
Proof.
  intros Hk Hrun. unfold EngineRun.run in Hrun.
  apply processDueContacts_placed in Hrun as (called & Hsub & Hc).
  cbn [placedCalls app] in Hc. rewrite Hc.
  set (due := Store.queryContactsDueForCall s currentTimestamp) in *.
  assert (called.*1 `sublist_of` due) as Hsub1.
  { etrans; [apply (fmap_sublist fst), Hsub |].
    unfold EngineRun.workOf. by rewrite fst_zip
      by (rewrite length_map, length_seq; lia). }
  split.
  - intros call Hin. apply in_map_iff in Hin as ([contact env] & <- & Hin).
    assert (In contact due) as Hdue.
    { apply list_elem_of_In. eapply elem_of_sublist; [| exact Hsub1].
      apply list_elem_of_fmap. exists (contact, env).
      split; [done | by apply list_elem_of_In]. }
    exists contact. do 3 (split; [done |]).
    subst due. unfold Store.queryContactsDueForCall in Hdue.
    destruct (activeList s) as [items |]; [| done].
    apply filter_In in Hdue as [Hin' Hd].
    apply in_sortBy, collectActive_stored in Hin' as [Hs _]. done.
  - rewrite map_map. simpl.
    change (map (λ cv : ContactCadenceState * Responses, phoneNumber cv.1)
              called)
      with (map phoneNumber (called.*1)) || rewrite <- (map_map fst phoneNumber).
    eapply sublist_NoDup; [| apply (fmap_sublist phoneNumber), Hsub1].
    subst due. unfold Store.queryContactsDueForCall.
    destruct (activeList s) as [items |]; [| constructor].
    apply nodup_map_filter.
    rewrite (Permutation_map phoneNumber (sortBy_perm compareContacts _)).
    by apply collectActive_nodup.
Qed.
End EngineLoop.

Section EngineIteration.
Import CadenceEngine.
Context {R : Type} `{RuleObject R}.
Variable rules : gmap string R.
Variable ctx : MyContext.

(** X19: a call that could not be placed.  When start_call rejects the call
    or throws, after the token was written, and the reverting write is
    served, the contact's document is reduced to its phone number with
    status ERROR, the phone number has left the active list, the error is
    counted and no call is counted as initiated; under a keyed store the
    contact is then never returned by queryDue again. *)
Theorem failed_call_leaves_error contact env e :
  keyedByPhone (sync e) →
  lookupOrDefault rules (ruleKeyOf contact) ≠ Undefined →
  exhaustedWith contact (lookupOrDefault rules (ruleKeyOf contact)) = None →
  tokenWriteOk env = true →
  startCallOutcome env ≠ CallAccepted →
  revertWriteOk env = true →
  ∃ e',
    processContact rules ctx contact env e = Ok e'
    ∧ documents (sync e') !! phoneNumber contact
      = Some (set_status (Some ERROR) (bare (phoneNumber contact)))
    ∧ initiatedCalls e' = initiatedCalls e
    ∧ errorsEncountered e' = errorsEncountered e + 1
    ∧ ∀ asOf r,
        In r (Store.queryContactsDueForCall (sync e') asOf) →
        phoneNumber r ≠ phoneNumber contact.
Proof.
  intros Hk Hl Hex Ht Hc Hr.
  assert (processContact rules ctx contact env e
          = Ok (mkEngine
                  (addOrUpdateContact
                     (addOrUpdateContact (sync e)
                        (stateUpdateForCallAttempt (now env) contact))
                     (revertState contact))
                  (placedCalls e ++ [callParameters ctx (now env) contact])
                  (processedContacts e + 1) (initiatedCalls e)
                  (errorsEncountered e + 1))) as Hp.
  { unfold processContact. rewrite Hex, Ht, Hr. simpl.
    destruct (lookupOrDefault rules (ruleKeyOf contact)); [| | done];
      by destruct (startCallOutcome env). }
  eexists. split; [exact Hp |].
  cbn [sync initiatedCalls errorsEncountered].
  split; [apply lookup_insert_eq |]. do 2 (split; [done |]).
  intros asOf r Hin.
  change (phoneNumber contact) with (phoneNumber (revertState contact)).
  eapply inactive_not_due; [| | exact Hin]; [| done].
  by apply addOrUpdate_keyed.
Qed.
End EngineIteration.

Section EngineSegmentTable.
Import CadenceEngine.

(** X20: under the segment rule table the engine's max-attempts test is
    dead.  A segment rule has no maxAttempts, so for every due contact
    whose rule resolves and whose token write is served the iteration
    hands a call to start_call, whatever the contact's attemptCount. *)
Theorem segment_table_always_calls
    (rules : CadenceRules.CadenceRulesConfig) ctx contact env e :
  lookupOrDefault rules (ruleKeyOf contact) ≠ Undefined →
  tokenWriteOk env = true →
  ∃ e',
    processContact rules ctx contact env e = Ok e'
    ∧ placedCalls e'
      = placedCalls e ++ [callParameters ctx (now env) contact].
Proof.
  intros Hl Ht. unfold processContact.
  rewrite segment_rules_never_exhaust, Ht. simpl.
  destruct (lookupOrDefault rules (ruleKeyOf contact)); [| | done];
    destruct (startCallOutcome env); eauto.
Qed.

Lemma segment_table_always_calls_witness :
  ∃ e',
    processContact CadenceRules.getCadenceRules engineContext
      (set_attemptCount (Some 1000) storedContact) servedResponses
      (engineStart storeWithContact) = Ok e'
    ∧ placedCalls e'
      = [callParameters engineContext 2000000
           (set_attemptCount (Some 1000) storedContact)].
Proof.
  refine (segment_table_always_calls CadenceRules.getCadenceRules
            engineContext (set_attemptCount (Some 1000) storedContact)
            servedResponses (engineStart storeWithContact) _ eq_refl).
  vm_compute. discriminate.
Defined.

Lemma storeWithContact_keyed : keyedByPhone storeWithContact.
Proof.
  intros phone d Hd. unfold storeWithContact in Hd. cbn [documents] in Hd.
  apply lookup_insert_Some in Hd as [[<- <-] | [_ Hd]]; [done |].
  by rewrite lookup_empty in Hd.
Qed.

Lemma failed_call_leaves_error_witness :
  ∃ e',
    processContact CadenceRules.getCadenceRules engineContext storedContact
      (mkResponses 2000000 true true CallRejected true)
      (engineStart storeWithContact) = Ok e'
    ∧ documents (sync e') !! "+15550110"
      = Some (set_status (Some ERROR) (bare "+15550110"))
    ∧ initiatedCalls e' = 0
    ∧ errorsEncountered e' = 1.
Proof.
  destruct (@failed_call_leaves_error _ segmentRuleObject
              CadenceRules.getCadenceRules engineContext storedContact
              (mkResponses 2000000 true true CallRejected true)
              (engineStart storeWithContact))
    as (e' & Hp & Hd & Hi & He & _).
  - exact storeWithContact_keyed.
  - vm_compute. discriminate.
  - apply segment_rules_never_exhaust.
  - reflexivity.
  - discriminate.
  - reflexivity.
  - exists e'. repeat split; assumption.
Defined.

Lemma loop_accounting_witness :
  ∃ e',
    processDueContacts CadenceRules.getCadenceRules engineContext
      [(storedContact, servedResponses)] (engineStart storeWithContact)
    = Ok e'
    ∧ processedContacts e' = 1.
Proof.
  eexists. split; [vm_compute; reflexivity |].
  edestruct (@loop_accounting _ segmentRuleObject
               CadenceRules.getCadenceRules engineContext
               [(storedContact, servedResponses)]
               (engineStart storeWithContact))
    as (called & _ & _ & Hp & _); [vm_compute; reflexivity |].
  exact Hp.
Defined.

Lemma smallStore_keyed : keyedByPhone smallStore.
Proof.
  intros phone d Hd. unfold smallStore in Hd. cbn [documents] in Hd.
  repeat (apply lookup_insert_Some in Hd as [[<- <-] | [_ Hd]]; [done |]).
  by rewrite lookup_empty in Hd.
Qed.

Lemma run_dials_due_contacts_once_witness :
  ∃ e',
    EngineRun.run CadenceRules.getCadenceRules engineContext smallStore 1000
      (λ _, servedResponses) = Ok e'
    ∧ NoDup (map To (placedCalls e')).
Proof.
  eexists. split; [vm_compute; reflexivity |].
  refine (proj2 (@run_dials_due_contacts_once _ segmentRuleObject
                   CadenceRules.getCadenceRules engineContext smallStore 1000
                   (λ _, servedResponses) _ smallStore_keyed _)).
  vm_compute. reflexivity.
Defined.
End EngineSegmentTable.

(** ** The initial dialer as a whole *)

Section Dialer.
Import Hopper InitialDialer.

Lemma fetchAndLock_claim tbl :
  fetchAndLock tbl
  = match selectNext [] tbl with
    | Some r =>
        (markProcessing (id r) tbl, Some (mkResult (id r) (lead_id r)))
    | None => (tbl, None)
    end.
Proof. reflexivity. Qed.

(** What an invocation does to the hopper, row by row: the rows keep their
    data; without a claim no row changes; with a claim the rows of the
    claimed id get the status read off the response, and the others do not
    change. *)
Lemma handler_hopper ctx env d :
  ∃ g,
    hopper (db (handler ctx env d)) = map g (hopper d)
    ∧ (∀ r, rowData (g r) = rowData r)
    ∧ match claimOf env d with
      | None => ∀ r, g r = r
      | Some r0 =>
          responseStatus (handler ctx env d) ≠ no_leads_found
          ∧ ∀ r,
              (id r ≠ id r0 → g r = r)
              ∧ (id r = id r0 →
                 hstatus (g r)
                 = statusLeft env (handler ctx env d)
                     (mkResult (id r0) (lead_id r0)))
      end.
Proof.
  set (mp i := λ r, if bool_decide (id r = i)
                    then mkRow (id r) (lead_id r) (hopper_entry_timestamp r)
                           (priority r) PROCESSING_INITIAL_CALL
                    else r).
  set (ss i s := λ r, if bool_decide (id r = i)
                      then mkRow (id r) (lead_id r)
                             (hopper_entry_timestamp r) (priority r) s
                      else r).
  set (mu i := λ r, if bool_decide (id r = i)
                       && bool_decide (hstatus r = PROCESSING_INITIAL_CALL)
                    then mkRow (id r) (lead_id r)
                           (hopper_entry_timestamp r) (priority r)
                           ERROR_PROCESSING_UNHANDLED
                    else r).
  assert (∀ i tbl, markProcessing i tbl = map (mp i) tbl) as Hmp by done.
  assert (∀ i s tbl, setStatus i s tbl = map (ss i s) tbl) as Hss by done.
  assert (∀ i tbl, markUnhandled i tbl = map (mu i) tbl) as Hmu by done.
  unfold claimOf, handler. destruct (fails env 1); simpl.
  { exists (λ r, r). by rewrite map_id. }
  rewrite fetchAndLock_claim.
  destruct (selectNext [] (hopper d)) as [r0 |]; simpl.
  2: { exists (λ r, r). by rewrite map_id. }
  assert (∀ call d',
            hopper d' = map (mp (id r0)) (hopper d) →
            ∃ g,
              hopper (db (unhandled env d'
                            (Some (mkResult (id r0) (lead_id r0))) call))
              = map g (hopper d)
              ∧ (∀ r, rowData (g r) = rowData r)
              ∧ internal_server_error ≠ no_leads_found
              ∧ ∀ r,
                  (id r ≠ id r0 → g r = r)
                  ∧ (id r = id r0 →
                     hstatus (g r)
                     = (if recoveryServed env
                           && negb (bool_decide (id r0 = 0))
                        then ERROR_PROCESSING_UNHANDLED
                        else PROCESSING_INITIAL_CALL))) as Hun.
  { intros call d' Hd'. unfold unhandled. cbn [db hopper_id].
    destruct (recoveryServed env && negb (bool_decide (id r0 = 0))).
    - exists (λ r, mu (id r0) (mp (id r0) r)).
      cbn [withHopper hopper]. rewrite Hmu, Hd', map_map.
      split; [done |]. split; [| split; [done |]].
      + intros r. unfold mu, mp, rowData. by repeat (case_bool_decide; simpl).
      + intros r. unfold mu, mp. split; intros Hi.
        * rewrite (bool_decide_eq_false_2 (id r = id r0)) by done.
          by rewrite (bool_decide_eq_false_2 (id r = id r0)).
        * rewrite (bool_decide_eq_true_2 (id r = id r0)) by done. simpl.
          by rewrite !bool_decide_eq_true_2.
    - exists (mp (id r0)). split; [done |]. split; [| split; [done |]].
      + intros r. unfold mp, rowData. by repeat (case_bool_decide; simpl).
      + intros r. unfold mp. split; intros Hi.
        * by rewrite bool_decide_eq_false_2.
        * by rewrite bool_decide_eq_true_2. }
  assert (∀ s tbl',
            tbl' = map (mp (id r0)) (hopper d) →
            ∃ g,
              setStatus (id r0) s tbl' = map g (hopper d)
              ∧ (∀ r, rowData (g r) = rowData r)
              ∧ ∀ r,
                  (id r ≠ id r0 → g r = r)
                  ∧ (id r = id r0 → hstatus (g r) = s)) as Hset.
  { intros s tbl' ->. exists (λ r, ss (id r0) s (mp (id r0) r)).
    rewrite Hss, map_map. split; [done |]. split.
    - intros r. unfold ss, mp, rowData. by repeat (case_bool_decide; simpl).
    - intros r. unfold ss, mp. split; intros Hi.
      + rewrite (bool_decide_eq_false_2 (id r = id r0)) by done.
        by rewrite (bool_decide_eq_false_2 (id r = id r0)).
      + rewrite (bool_decide_eq_true_2 (id r = id r0)) by done. simpl.
        by rewrite bool_decide_eq_true_2. }
  destruct (fails env 2).
  { destruct (Hun None (withHopper (markProcessing (id r0) (hopper d)) d)
                eq_refl) as (g & H1 & H2 & H3 & H4).
    exists g. unfold statusLeft. cbn [responseStatus unhandled hopper_id].
    eauto. }
  destruct (leads d !! lead_id r0) as [lead |].
  - destruct (fails env 3).
    { destruct (Hun None (withHopper (markProcessing (id r0) (hopper d)) d)
                  eq_refl) as (g & H1 & H2 & H3 & H4).
      exists g. unfold statusLeft. cbn [responseStatus unhandled hopper_id].
      eauto. }
    destruct (startCallOutcome env).
    + exists (mp (id r0)). cbn [db hopper responseStatus].
      split; [done |]. split; [| split; [done |]].
      * intros r. unfold mp, rowData. by repeat (case_bool_decide; simpl).
      * intros r. unfold mp, statusLeft. cbn [responseStatus].
        split; intros Hi.
        -- by rewrite bool_decide_eq_false_2.
        -- by rewrite bool_decide_eq_true_2.
    + destruct (fails env 4).
      * match goal with
        | |- context [unhandled env ?d' _ ?c] =>
            destruct (Hun c d' eq_refl) as (g & H1 & H2 & H3 & H4)
        end.
        exists g. unfold statusLeft.
        cbn [responseStatus unhandled hopper_id]. eauto.
      * destruct (Hset ERROR_INITIATING_CALL
                    (markProcessing (id r0) (hopper d)) eq_refl)
          as (g & H1 & H2 & H3).
        exists g. cbn [db withHopper hopper responseStatus].
        unfold statusLeft. cbn [responseStatus]. eauto.
    + destruct (fails env 4).
      * match goal with
        | |- context [unhandled env ?d' _ ?c] =>
            destruct (Hun c d' eq_refl) as (g & H1 & H2 & H3 & H4)
        end.
        exists g. unfold statusLeft.
        cbn [responseStatus unhandled hopper_id]. eauto.
      * destruct (Hset ERROR_INITIATING_CALL
                    (markProcessing (id r0) (hopper d)) eq_refl)
          as (g & H1 & H2 & H3).
        exists g. cbn [db withHopper hopper responseStatus].
        unfold statusLeft. cbn [responseStatus]. eauto.
  - destruct (fails env 3).
    { destruct (Hun None (withHopper (markProcessing (id r0) (hopper d)) d)
                  eq_refl) as (g & H1 & H2 & H3 & H4).
      exists g. unfold statusLeft. cbn [responseStatus unhandled hopper_id].
      eauto. }
    destruct (Hset ERROR_PROCESSING_LEAD_NOT_FOUND
                (markProcessing (id r0) (hopper d)) eq_refl)
      as (g & H1 & H2 & H3).
    exists g. cbn [db withHopper hopper responseStatus].
    unfold statusLeft. cbn [responseStatus]. eauto.
Qed.
End Dialer.

Section DialerProperties.
Import Hopper InitialDialer.

(** X21: what an invocation of the initial dialer leaves in the hopper.
    Without a claim no row changes and no call is placed.  With a claim,
    the rows keep their data, the rows of other ids are untouched, and the
    claimed entry is left in the status that goes with the response:
    PROCESSING_INITIAL_CALL after call_initiated, ERROR_INITIATING_CALL
    after error_initiating_call, ERROR_PROCESSING_LEAD_NOT_FOUND after
    error_lead_not_found; after internal_server_error it is
    ERROR_PROCESSING_UNHANDLED when the recovering update is served and the
    hopper id is not 0, and stays PROCESSING_INITIAL_CALL otherwise.  It is
    never PENDING_INITIAL_CALL again. *)
Theorem dialer_leaves_claimed_entry ctx env d :
  (claimOf env d = None →
   hopper (db (handler ctx env d)) = hopper d
   ∧ startCall (handler ctx env d) = None)
  ∧ (∀ r0, claimOf env d = Some r0 →
       responseStatus (handler ctx env d) ≠ no_leads_found
       ∧ map rowData (hopper (db (handler ctx env d)))
         = map rowData (hopper d)
       ∧ (∀ r, id r ≠ id r0 →
               In r (hopper (db (handler ctx env d))) ↔ In r (hopper d))
       ∧ (∀ r, In r (hopper (db (handler ctx env d))) → id r = id r0 →
               hstatus r
               = statusLeft env (handler ctx env d)
                   (mkResult (id r0) (lead_id r0))
               ∧ hstatus r ≠ PENDING_INITIAL_CALL)).
Proof.
  destruct (handler_hopper ctx env d) as (g & Hg & Hdata & Hc).
  split.
  - intros Hn. rewrite Hn in Hc. split.
    + rewrite Hg. rewrite <- (map_id (hopper d)) at 2.
      apply map_ext. exact Hc.
    + revert Hn. unfold claimOf, handler.
      destruct (fails env 1); [done |].
      rewrite fetchAndLock_claim. by intros ->.
  - intros r0 Hs. rewrite Hs in Hc. destruct Hc as [Hne Hrows].
    split; [done |]. split; [| split].
    + rewrite Hg, map_map. apply map_ext. exact Hdata.
    + intros r Hi. rewrite Hg, in_map_iff. split.
      * intros (r' & <- & Hin).
        destruct (decide (id r' = id r0)) as [He | Hn'].
        -- exfalso. apply Hi.
           pose proof (f_equal (λ x, x.1.1.1) (Hdata r')) as Hid.
           simpl in Hid. by rewrite Hid.
        -- by rewrite (proj1 (Hrows r') Hn').
      * intros Hin. exists r. split; [| done].
        by apply (proj1 (Hrows r)).
    + intros r Hin Hi. rewrite Hg in Hin.
      apply in_map_iff in Hin as (r' & <- & Hin).
      assert (id r' = id r0) as Hi'.
      { pose proof (f_equal (λ x, x.1.1.1) (Hdata r')) as Hid.
        simpl in Hid. by rewrite <- Hid. }
      rewrite (proj2 (Hrows r') Hi'). split; [done |].
      unfold statusLeft.
      destruct (responseStatus _); try done;
        by destruct (recoveryServed env && _).
Qed.

Lemma dialer_leaves_claimed_entry_witness :
  In (mkRow 2 "lead-2" 1000 None PROCESSING_INITIAL_CALL)
     (hopper (db (handler dialerContext dialerServed dialerDb)))
  ∧ statusLeft dialerServed (handler dialerContext dialerServed dialerDb)
      (mkResult 2 "lead-2")
    = PROCESSING_INITIAL_CALL.
Proof.
  assert (In (mkRow 2 "lead-2" 1000 None PROCESSING_INITIAL_CALL)
            (hopper (db (handler dialerContext dialerServed dialerDb))))
    as Hin by (vm_compute; tauto).
  split; [exact Hin |].
  symmetry.
  exact (proj1 (proj2 (proj2 (proj2
           (proj2 (dialer_leaves_claimed_entry dialerContext dialerServed
                     dialerDb) hopperRow2 eq_refl)))
           (mkRow 2 "lead-2" 1000 None PROCESSING_INITIAL_CALL) Hin
           eq_refl)).
Defined.

(** X22: the call of an invocation and its tracking id.  When the initial
    dialer hands a call to start_call, it claimed an entry whose lead
    exists; the call goes to that lead's phone number and carries the
    lead's id and the entry's id; and the CallSid of the call is the
    tracking id made of the entry's id, the lead id and the clock, which is
    also the id stored with the entry. *)
Theorem dialer_call_is_tracked ctx env d p :
  startCall (handler ctx env d) = Some p →
  ∃ r0 lead,
    claimOf env d = Some r0
    ∧ leads d !! lead_id r0 = Some lead
    ∧ To p = lead_phone lead
    ∧ meta_hopper_id p = id r0
    ∧ meta_lead_id p = lead_details_id lead
    ∧ initial_call_provider_sid (db (handler ctx env d)) !! id r0
      = Some (CallSid p)
    ∧ CallSid p
      = TrackingId.trackingId (id r0) (lead_id r0) (dateNow env).
Proof.
  unfold claimOf, handler.
  destruct (fails env 1); [done |].
  rewrite fetchAndLock_claim.
  destruct (selectNext [] (hopper d)) as [r0 |]; [| done].
  cbn [hopper_id result_lead_id].
  assert (∀ d', startCall (unhandled env d'
                             (Some (mkResult (id r0) (lead_id r0))) None)
                = Some p → False) as Hno by done.
  destruct (fails env 2); [intros Hp; by destruct (Hno _ Hp) |].
  destruct (leads d !! lead_id r0) as [lead |] eqn:Hlead;
    [| destruct (fails env 3); [intros Hp; by destruct (Hno _ Hp) | done]].
  destruct (fails env 3); [intros Hp; by destruct (Hno _ Hp) |].
  assert (∀ o,
            startCall o
            = Some (mkStartCall (lead_phone lead)
                      (INITIAL_CALL_CALLER_ID ctx)
                      (RETELL_AGENT_ID_INITIAL_CALL ctx)
                      (TrackingId.trackingId (id r0) (lead_id r0)
                         (dateNow env))
                      (lead_details_id lead) (id r0)
                      (lead_first_name lead) (lead_last_name lead)) →
            initial_call_provider_sid (db o) !! id r0
            = Some (TrackingId.trackingId (id r0) (lead_id r0)
                      (dateNow env)) →
            startCall o = Some p →
            ∃ r1 lead1,
              Some r0 = Some r1 ∧ leads d !! lead_id r1 = Some lead1
              ∧ To p = lead_phone lead1
              ∧ meta_hopper_id p = id r1
              ∧ meta_lead_id p = lead_details_id lead1
              ∧ initial_call_provider_sid (db o) !! id r1
                = Some (CallSid p)
              ∧ CallSid p
                = TrackingId.trackingId (id r1) (lead_id r1) (dateNow env))
    as Hcall.
  { intros o Ho Hs Hp. rewrite Ho in Hp. injection Hp as <-.
    exists r0, lead. cbn [To meta_hopper_id meta_lead_id CallSid].
    do 5 (split; [done |]). by split. }
  destruct (startCallOutcome env).
  - intros Hp; match type of Hp with startCall ?o = _ =>
      apply (Hcall o eq_refl); [| exact Hp] end.
    cbn [db initial_call_provider_sid]. apply lookup_insert_eq.
  - destruct (fails env 4); intros Hp;
      (match type of Hp with startCall ?o = _ =>
         apply (Hcall o eq_refl); [| exact Hp] end).
    + unfold unhandled. cbn [db hopper_id].
      destruct (_ && _); cbn [withHopper initial_call_provider_sid];
        apply lookup_insert_eq.
    + cbn [db withHopper initial_call_provider_sid].
      apply lookup_insert_eq.
  - destruct (fails env 4); intros Hp;
      (match type of Hp with startCall ?o = _ =>
         apply (Hcall o eq_refl); [| exact Hp] end).
    + unfold unhandled. cbn [db hopper_id].
      destruct (_ && _); cbn [withHopper initial_call_provider_sid];
        apply lookup_insert_eq.
    + cbn [db withHopper initial_call_provider_sid].
      apply lookup_insert_eq.
Qed.

Lemma dialer_call_is_tracked_witness :
  ∃ r0 lead,
    claimOf dialerServed dialerDb = Some r0
    ∧ leads dialerDb !! lead_id r0 = Some lead
    ∧ To (mkStartCall "+15550122" "+15550000" "agent-initial"
            "initial_H2_Llead-2_1700000000000" "lead-2" 2 (Some "Ada") None)
      = lead_phone lead.
Proof.
  destruct (dialer_call_is_tracked dialerContext dialerServed dialerDb
              (mkStartCall "+15550122" "+15550000" "agent-initial"
                 "initial_H2_Llead-2_1700000000000" "lead-2" 2 (Some "Ada")
                 None))
    as (r0 & lead & Hc & Hl & Ht & _).
  - vm_compute. reflexivity.
  - exists r0, lead. by repeat split.
Defined.
End DialerProperties.

Section DialerSequence.
Import Hopper InitialDialer.

(** The PENDING rows an invocation leaves: those it found, without the rows
    of the id it claimed. *)
Lemma handler_pending ctx env d :
  List.filter (candidate []) (hopper (db (handler ctx env d)))
  = match claimOf env d with
    | Some r0 =>
        List.filter
          (λ r, candidate [] r && negb (bool_decide (id r = id r0)))
          (hopper d)
    | None => List.filter (candidate []) (hopper d)
    end.
Proof.
  destruct (handler_hopper ctx env d) as (g & Hg & Hdata & Hc).
  rewrite Hg. clear Hg. destruct (claimOf env d) as [r0 |].
  - destruct Hc as [_ Hrows].
    assert (statusLeft env (handler ctx env d)
              (mkResult (id r0) (lead_id r0)) ≠ PENDING_INITIAL_CALL) as Hne.
    { unfold statusLeft. destruct (responseStatus _); try done;
        by destruct (recoveryServed env && _). }
    induction (hopper d) as [| r rest IH]; [done |]. simpl.
    rewrite IH. destruct (decide (id r = id r0)) as [Hi | Hi].
    + rewrite (bool_decide_eq_true_2 _ Hi), andb_false_r.
      unfold candidate at 1. rewrite (proj2 (Hrows r) Hi).
      by rewrite (bool_decide_eq_false_2 _ Hne).
    + rewrite (bool_decide_eq_false_2 _ Hi), andb_true_r.
      by rewrite (proj1 (Hrows r) Hi).
  - f_equal. rewrite <- (map_id (hopper d)) at 2. by apply map_ext.
Qed.

Lemma claimedRows_pending ctx envs d r :
  In r (claimedRows ctx envs d) →
  In r (hopper d) ∧ candidate [] r = true.
Proof.
  revert d. induction envs as [| env rest IH]; intros d; simpl; [done |].
  pose proof (handler_pending ctx env d) as Hp.
  assert (In r (claimedRows ctx rest (db (handler ctx env d))) →
          In r (hopper d) ∧ candidate [] r = true) as Hlater.
  { intros Hin. apply IH in Hin.
    assert (In r (List.filter (candidate [])
                    (hopper (db (handler ctx env d))))) as Hf
      by by apply filter_In.
    rewrite Hp in Hf. destruct (claimOf env d).
    - apply filter_In in Hf as [? [? _]%andb_true_iff]. done.
    - by apply filter_In in Hf. }
  destruct (claimOf env d) as [r0 |] eqn:Hc; [| done].
  intros [<- | Hin]; [| by apply Hlater].
  unfold claimOf in Hc. destruct (fails env 1); [done |].
  apply selectNext_isNext in Hc as (? & ? & _). done.
Qed.

Lemma claimedRows_later ctx env rest d r0 r :
  claimOf env d = Some r0 →
  In r (claimedRows ctx rest (db (handler ctx env d))) →
  In r (hopper d) ∧ candidate [] r = true ∧ id r ≠ id r0.
Proof.
  intros Hc Hin. apply claimedRows_pending in Hin.
  assert (In r (List.filter (candidate [])
                  (hopper (db (handler ctx env d))))) as Hf
    by by apply filter_In.
  rewrite handler_pending, Hc in Hf.
  apply filter_In in Hf as [? [? Hne]%andb_true_iff].
  apply negb_true_iff, bool_decide_eq_false in Hne. done.
Qed.

(** X23: invocations of the initial dialer that run one after the other.
    Whatever happens inside each of them (lead missing, call rejected, a
    query failing), the entries they claim are rows that were PENDING in
    the hopper they started from, no id is claimed twice, and the entries
    are claimed in the order of the queue: hopper_entry_timestamp
    ascending, then priority ascending with a missing priority last. *)
Theorem sequential_claims_in_order ctx envs d :
  StronglySorted (λ a b, orderLeb a b = true) (claimedRows ctx envs d)
  ∧ NoDup (map id (claimedRows ctx envs d))
  ∧ ∀ r, In r (claimedRows ctx envs d) →
         In r (hopper d) ∧ hstatus r = PENDING_INITIAL_CALL.
Proof.
  split; [| split].
  - revert d. induction envs as [| env rest IH]; intros d; simpl;
      [constructor |].
    destruct (claimOf env d) as [r0 |] eqn:Hc; [| apply IH].
    constructor; [apply IH |].
    apply List.Forall_forall. intros r Hin.
    destruct (claimedRows_later _ _ _ _ _ _ Hc Hin) as (Hr & Hcand & _).
    unfold claimOf in Hc. destruct (fails env 1); [done |].
    apply selectNext_isNext in Hc as (_ & _ & Hmin). by apply Hmin.
  - revert d. induction envs as [| env rest IH]; intros d; simpl;
      [constructor |].
    destruct (claimOf env d) as [r0 |] eqn:Hc; [| apply IH].
    simpl. constructor; [| apply IH].
    rewrite list_elem_of_In, in_map_iff. intros (r & Hi & Hin).
    by destruct (claimedRows_later _ _ _ _ _ _ Hc Hin) as (_ & _ & Hne).
  - intros r [Hin Hc]%claimedRows_pending. split; [done |].
    by apply candidate_spec in Hc as [? _].
Qed.

Lemma sequential_claims_in_order_witness :
  claimedRows dialerContext [dialerServed; dialerServed] dialerDb
  = [hopperRow2; hopperRow1]
  ∧ StronglySorted (λ a b, orderLeb a b = true)
      (claimedRows dialerContext [dialerServed; dialerServed] dialerDb).
Proof.
  split; [vm_compute; reflexivity |].
  exact (proj1 (sequential_claims_in_order dialerContext
                  [dialerServed; dialerServed] dialerDb)).
Defined.

Lemma filter_without_claimed (r0 : HopperRow) tbl :
  NoDup (map id tbl) →
  In r0 tbl →
  candidate [] r0 = true →
  S (length (List.filter
               (λ r, candidate [] r && negb (bool_decide (id r = id r0)))
               tbl))
  = length (List.filter (candidate []) tbl).
Proof.
  induction tbl as [| r rest IH]; simpl; [done |].
  intros [Hr Hnd]%NoDup_cons [-> | Hin] Hc.
  - rewrite Hc, bool_decide_eq_true_2 by done. simpl. f_equal. f_equal.
    apply filter_ext_in. intros r Hin.
    rewrite bool_decide_eq_false_2, andb_true_r; [done |].
    intros Hi. apply Hr. rewrite <- Hi.
    apply list_elem_of_In, in_map_iff. eauto.
  - rewrite bool_decide_eq_false_2.
    + rewrite andb_true_r. destruct (candidate [] r); simpl;
        by rewrite (IH Hnd Hin Hc).
    + intros Hi. apply Hr. rewrite Hi.
      apply list_elem_of_In, in_map_iff. eauto.
Qed.

(** X24: the hopper is drained one entry per invocation.  From a hopper
    whose ids are distinct, invocations that run one after the other and
    whose claiming query is served claim as many entries as there are
    invocations, until no PENDING entry is left. *)
Theorem sequential_invocations_drain ctx envs d :
  NoDup (map id (hopper d)) →
  Forall (λ env, fails env 1 = false) envs →
  length (claimedRows ctx envs d)
  = Nat.min (length envs) (length (pendingIds (hopper d))).
Proof.
  unfold pendingIds. setoid_rewrite length_map.
  revert d. induction envs as [| env rest IH]; intros d Hnd Hf; simpl;
    [done |].
  apply Forall_cons in Hf as [Hf1 Hf].
  assert (NoDup (map id (hopper (db (handler ctx env d))))) as Hnd'.
  { destruct (handler_hopper ctx env d) as (g & Hg & Hdata & _).
    rewrite Hg, map_map.
    rewrite (map_ext (λ r, id (g r)) id); [done |].
    intros r. exact (f_equal (λ x, x.1.1.1) (Hdata r)). }
  destruct (claimOf env d) as [r0 |] eqn:Hc; simpl;
    rewrite (IH _ Hnd' Hf), handler_pending, Hc.
  - unfold claimOf in Hc. rewrite Hf1 in Hc.
    apply selectNext_isNext in Hc as (Hin & Hcand & _).
    rewrite <- (filter_without_claimed r0 (hopper d)) by done.
    simpl. done.
  - unfold claimOf in Hc. rewrite Hf1 in Hc.
    assert (List.filter (candidate []) (hopper d) = []) as ->.
    { clear -Hc.
      assert (∀ r, In r (hopper d) → candidate [] r = false) as Hn
        by (intros r; by apply selectNext_none).
      clear Hc.
      induction (hopper d) as [| r rest IH]; [done |]. simpl.
      rewrite (Hn r) by by left. apply IH.
      intros r' Hr'. apply Hn. by right. }
    simpl. by rewrite Nat.min_0_r.
Qed.

Lemma sequential_invocations_drain_witness :
  length (claimedRows dialerContext
            [dialerServed; dialerServed; dialerServed] dialerDb) = 2%nat.
Proof.
  refine (sequential_invocations_drain dialerContext
            [dialerServed; dialerServed; dialerServed] dialerDb _ _).
  - apply (bool_decide_unpack _). vm_compute. exact I.
  - repeat constructor.
Defined.
End DialerSequence.

(** ** Lead ingestion *)

Section Ingestion.
Import Hopper IngestLead.

(** The invariant of the loop of [buildLeadInsertQuery]. *)
Lemma collect_spec leadData fields acc :
  foldl (collectField leadData) acc fields
  = mkCollected
      (providedFields acc ++ providedOf leadData fields)
      (providedValues acc ++ omap (fieldOf leadData) fields)
      (placeholders acc
       ++ map (λ i, "$" +:+ pretty i)
            (seqZ (placeholderIndex acc)
               (Z.of_nat (length (providedOf leadData fields)))))
      (placeholderIndex acc
       + Z.of_nat (length (providedOf leadData fields))).
Proof.
  revert acc. induction fields as [| f rest IH]; intros acc; simpl.
  - rewrite !app_nil_r, Z.add_0_r. by destruct acc.
  - rewrite IH. unfold collectField.
    destruct (fieldOf leadData f) as [v |] eqn:Hf; simpl.
    + rewrite <- !app_assoc.
      rewrite (seqZ_cons (placeholderIndex acc)
                 (Z.of_nat (S (length (providedOf leadData rest)))))
        by lia.
      replace (Z.pred (Z.of_nat (S (length (providedOf leadData rest)))))
        with (Z.of_nat (length (providedOf leadData rest))) by lia.
      replace (Z.succ (placeholderIndex acc))
        with (placeholderIndex acc + 1) by lia.
      f_equal. lia.
    + done.
Qed.

Lemma collectFields_spec leadData :
  collectFields leadData allLeadFields
  = mkCollected
      (providedOf leadData allLeadFields)
      (omap (fieldOf leadData) allLeadFields)
      (placeholdersUpTo (length (providedOf leadData allLeadFields)))
      (1 + Z.of_nat (length (providedOf leadData allLeadFields))).
Proof. unfold collectFields. by rewrite collect_spec. Qed.

Lemma length_providedOf leadData fields :
  length (omap (fieldOf leadData) fields)
  = length (providedOf leadData fields).
Proof.
  induction fields as [| f rest IH]; simpl; [done |].
  destruct (fieldOf leadData f); simpl; [f_equal |]; exact IH.
Qed.

(** X25: the INSERT statement of a lead.  [buildLeadInsertQuery] throws
    exactly when the payload carries none of the listed fields; otherwise
    the statement names the listed fields the payload carries, in the
    order of the list, the placeholders are [$1] to [$n] for these [n]
    fields, and the values are the payload's values of these fields, in
    the same order and number. *)
Theorem insert_query_shape leadData :
  match buildLeadInsertQuery leadData with
  | Throw => providedOf leadData allLeadFields = []
  | Ok q =>
      providedOf leadData allLeadFields ≠ []
      ∧ text q
        = "INSERT INTO leads ("
          +:+ join (providedOf leadData allLeadFields)
          +:+ ") VALUES ("
          +:+ join (placeholdersUpTo
                      (length (providedOf leadData allLeadFields)))
          +:+ ") RETURNING id"
      ∧ values q = omap (fieldOf leadData) allLeadFields
      ∧ length (values q) = length (providedOf leadData allLeadFields)
  end.
Proof.
  unfold buildLeadInsertQuery. rewrite collectFields_spec.
  cbn [providedFields placeholders providedValues].
  destruct (providedOf leadData allLeadFields) as [| f rest] eqn:Hp; [done |].
  cbn [text values]. rewrite <- Hp.
  split; [by rewrite Hp |]. split; [done |]. split; [done |].
  apply length_providedOf.
Qed.
End Ingestion.

Section IngestionHandler.
Import Hopper IngestLead.













End IngestionHandler.
